(** * ParameterValidator: a shallow embedding of [src/ParameterValidator.js]

    The development follows the source file top to bottom: the custom
    error class, the constructor, [validate], [validateAsync], the
    [defaultValidation] getter and the two private helpers.

    Modelling choices.
    - JavaScript values are the inductive [value].  Plain objects have an
      identity: they live in a [store] and are referred to by [VRef].
      An object is the list of its own data properties in the order
      [Object.keys] reports them, which for keys that are not array
      indices is the order in which they were added.  Keys are ordinary
      data keys: accessors, and with them the key [__proto__], are outside
      the model.
    - A property read gives the own property when there is one and
      otherwise what the prototype chain of the receiver gives, which the
      table [fun_table] supplies.
    - Arrays are immutable sequences ([VArr]); the source never writes to
      an array it receives.
    - Numbers are integers, plus [VNaN].  Integers of up to 21 digits
      print as plain decimals; what longer ones print as, and what an
      object prints as, is supplied by the table.
    - Functions supplied by callers are total and free of side effects,
      and what one returns depends on the value it is called on alone, not
      on what the store holds.  The table gives, for each function, the
      value it returns on an argument, its source text, what its
      properties read as, and what it makes of a promise when it is
      called as the [then] of an object.
    - The optional third argument of [validate] is either omitted or a
      reference to a store object.
    - [validateAsync] is followed through the job queue: the call queues
      one job and returns a pending promise, and running the queue settles
      the promise. *)

From stdpp Require Import gmap strings list pretty.

Set Warnings "-register-all,-clear-no-such-hyp".
Open Scope string_scope.
Open Scope list_scope.

(** ** Values, objects and the store *)

Abbreviation loc := positive.

Inductive func :=
| FIsDefined             (* the method [isDefined] of the class *)
| FUser (id : nat).      (* a function written by the caller *)

Inductive value :=
| VUndefined
| VNull
| VBool (b : bool)
| VNaN
| VNum (n : Z)
| VStr (s : string)
| VArr (items : list value)
| VRef (l : loc)
| VFun (f : func).

(** Own properties of a plain object, in [Object.keys] order. *)
Abbreviation obj := (list (string * value)).

Abbreviation store := (gmap loc obj).

Inductive jstype :=
| TUndefined | TObject | TBoolean | TNumber | TString | TFunction.

Definition typeof (v : value) : jstype :=
  match v with
  | VUndefined => TUndefined
  | VNull => TObject
  | VBool _ => TBoolean
  | VNaN | VNum _ => TNumber
  | VStr _ => TString
  | VArr _ | VRef _ => TObject
  | VFun _ => TFunction
  end.

Definition is_function (v : value) : bool :=
  match v with VFun _ => true | _ => false end.

Definition is_undefined (v : value) : bool :=
  match v with VUndefined => true | _ => false end.

(** [v === true] *)
Definition is_true (v : value) : bool :=
  match v with VBool true => true | _ => false end.

Definition isArray (v : value) : bool :=
  match v with VArr _ => true | _ => false end.

(** ToBoolean: what [!x], [x && y] and [x || y] test. *)
Definition truthy (v : value) : bool :=
  match v with
  | VUndefined | VNull | VNaN => false
  | VBool b => b
  | VNum n => negb (n =? 0)%Z
  | VStr s => negb (String.eqb s EmptyString)
  | VArr _ | VRef _ | VFun _ => true
  end.

(** Errors and completions *)

Inductive exn :=
| ParameterValidationError (message : string)
| Error (message : string)
| TypeError.

Inductive completion (A : Type) :=
| Return (a : A)
| Throw (e : exn).
Arguments Return {A} a.
Arguments Throw {A} e.

(** A thrown error aborts what follows it. *)
#[global] Instance completion_bind : MBind completion := λ A B k c,
  match c with
  | Return a => k a
  | Throw e => Throw e
  end.

(** ** Object primitives *)

Fixpoint obj_lookup (o : obj) (k : string) : option value :=
  match o with
  | [] => None
  | (k', v) :: o' => if String.eqb k' k then Some v else obj_lookup o' k
  end.

(** [o[k]] on an object whose prototype chain reads as [inherited]: the
    own property when [k] is an own key, what the chain gives otherwise. *)
Definition obj_read (inherited : string → value) (o : obj) (k : string) : value :=
  default (inherited k) (obj_lookup o k).

(** [o[k] = v]: overwrite in place, or add the key last. *)
Fixpoint obj_set (o : obj) (k : string) (v : value) : obj :=
  match o with
  | [] => [(k, v)]
  | (k', v') :: o' =>
      if String.eqb k' k then (k', v) :: o' else (k', v') :: obj_set o' k v
  end.

(** [Object.assign(t, src)] on the property lists. *)
Definition obj_assign (t src : obj) : obj :=
  fold_left (λ t kv, obj_set t kv.1 kv.2) src t.

(** The index an array-index key denotes, among the first [n] indices. *)
Definition index_of_key (n : nat) (k : string) : option nat :=
  find (λ i, String.eqb (pretty i) k) (seq 0 n).

(** Own properties of an array: its length and its elements. *)
Definition array_own (items : list value) (k : string) : option value :=
  if String.eqb k "length" then Some (VNum (Z.of_nat (length items)))
  else match index_of_key (length items) k with
       | Some i => items !! i
       | None => None
       end.

(** Own properties of a string: its length and its characters. *)
Definition string_own (s : string) (k : string) : option value :=
  if String.eqb k "length" then Some (VNum (Z.of_nat (String.length s)))
  else match index_of_key (String.length s) k with
       | Some i => Some (VStr (String.substring i 1 s))
       | None => None
       end.

(** [s.slice(0, -k)] *)
Definition slice_end (s : string) (k : nat) : string :=
  String.substring 0 (String.length s - k) s.

(** ** What the caller's world provides

    The state of a promise, and the table of what [validate] cannot see
    into: the caller's functions, the prototype chains of the values it is
    handed, and the string conversions the platform or the caller define. *)

Inductive promise_state :=
| Pending
| Fulfilled (v : value)
| Rejected (reason : exn).

Record fun_table := {
  (* the value a caller's function returns on an argument *)
  fn_apply : nat → value → value;
  (* what string conversion prints for a function *)
  fn_source : func → string;
  (* what a property read on a function object gives *)
  fn_own : func → string → value;
  (* what the prototype chain of a value gives for a key that is not an
     own key of it: [undefined] unless the chain has the key *)
  fn_inherited : value → string → value;
  (* what a function makes of a promise when it is called as the [then]
     of an object the promise was resolved with, being handed the
     promise's two resolving functions: [Pending] when it calls neither *)
  fn_then : func → value → promise_state;
  (* what string conversion prints for a number of 22 digits or more *)
  fn_number_text : Z → string;
  (* what string conversion prints for an object: "[object Object]"
     unless the object or its prototype chain defines otherwise *)
  fn_object_text : loc → string
}.

Section Validator.

Context (F : fun_table).

(** ToString, as template literals and property keys apply it. *)
Fixpoint to_string (v : value) : string :=
  match v with
  | VUndefined => "undefined"
  | VNull => "null"
  | VBool true => "true"
  | VBool false => "false"
  | VNaN => "NaN"
  | VNum n =>
      if (Z.abs n <? 10 ^ 21)%Z then pretty n else fn_number_text F n
  | VStr s => s
  | VArr items =>
      String.concat ","
        (map (λ x, match x with
                   | VUndefined | VNull => EmptyString
                   | _ => to_string x
                   end) items)
  | VRef l => fn_object_text F l
  | VFun f => fn_source F f
  end.

(** The own property [k] of a value, if it has one. *)
Definition own_prop (σ : store) (recv : value) (k : string) : option value :=
  match recv with
  | VRef l => obj_lookup (default [] (σ !! l)) k
  | VArr items => array_own items k
  | VStr s => string_own s k
  | _ => None
  end.

(** [recv[k]]: the own property, else what the prototype chain gives.
    The receiver is neither [undefined] nor [null]: [validate] rejects a
    falsy [paramsProvided] on line 64 before any property is read, the
    constructor reads its options only when they are truthy, and a
    requirement is read only after [Array.isArray] or [Object.keys]
    accepted it. *)
Definition get_prop (σ : store) (recv : value) (k : string) : value :=
  match recv with
  | VUndefined | VNull => VUndefined
  | VFun f => fn_own F f k
  | _ => default (fn_inherited F recv k) (own_prop σ recv k)
  end.

(** [Object.keys(v)] *)
Definition Object_keys (σ : store) (v : value) : completion (list string) :=
  match v with
  | VUndefined | VNull => Throw TypeError
  | VRef l => Return (map fst (default [] (σ !! l)))
  | VArr items => Return (map pretty (seq 0 (length items)))
  | VStr s => Return (map pretty (seq 0 (String.length s)))
  | _ => Return []
  end.

(** [Object.assign(target, src)] where [target] is the store object [l]. *)
Definition Object_assign (σ : store) (l : loc) (src : obj) : store :=
  <[l := obj_assign (default [] (σ !! l)) src]> σ.

Definition isDefined (v : value) : value :=
  VBool (negb (is_undefined v)).

(** [f(arg)] *)
Definition call (f : value) (arg : value) : completion value :=
  match f with
  | VFun FIsDefined => Return (isDefined arg)
  | VFun (FUser i) => Return (fn_apply F i arg)
  | _ => Throw TypeError
  end.

(** ** The class *)

Record ParameterValidator := { _defaultValidation : value }.

Definition constructor (σ : store) (options : value) : completion ParameterValidator :=
  if truthy options then
    let defaultValidation := get_prop σ options "defaultValidation" in
    if negb (is_undefined defaultValidation || is_function defaultValidation) then
      Throw (ParameterValidationError
               "The optional defaultValidation parameter provided is not a function.")
    else Return {| _defaultValidation := defaultValidation |}
  else Return {| _defaultValidation := VUndefined |}.

(** The getter: [this._defaultValidation || this.isDefined]. *)
Definition defaultValidation (this : ParameterValidator) : value :=
  if truthy (_defaultValidation this) then _defaultValidation this
  else VFun FIsDefined.

Record validationResult := { errors : list string; params : obj }.

(** First loop of [_performLogicalOrParamValidation]. *)
Fixpoint or_extract (σ : store) (isValid paramsProvided : value)
    (paramNames : list value) (extractedParams : obj) : completion obj :=
  match paramNames with
  | [] => Return extractedParams
  | paramName :: rest =>
      r ← call isValid (get_prop σ paramsProvided (to_string paramName));
      or_extract σ isValid paramsProvided rest
        (if truthy r
         then obj_set extractedParams (to_string paramName)
                (get_prop σ paramsProvided (to_string paramName))
         else extractedParams)
  end.

(** Second loop: the message under construction. *)
Definition or_message (paramNames : list value) : string :=
  slice_end
    (fold_left (λ errorMessage paramName,
                  errorMessage +:+ "'" +:+ to_string paramName +:+ "', ")
       paramNames "One of the following parameters must be included: ") 2
  +:+ ".".

Definition _performLogicalOrParamValidation (this : ParameterValidator)
    (σ : store) (paramsProvided : value) (paramNames : list value)
  : completion validationResult :=
  let isValid := defaultValidation this in
  extractedParams ← or_extract σ isValid paramsProvided paramNames [];
  Return {| errors := if (length (map fst extractedParams) =? 0)%nat
                      then [or_message paramNames] else [];
            params := extractedParams |}.

Definition _executeValidationFunction (σ : store)
    (paramsProvided paramName validationFunction : value)
  : completion validationResult :=
  if negb (is_function validationFunction) then
    Throw (Error ("A paramRequirement value provided for the parameter "
                  +:+ to_string paramName +:+ " is not a function."))
  else
    let v := get_prop σ paramsProvided (to_string paramName) in
    r ← call validationFunction v;
    if is_true r then
      Return {| errors := []; params := [(to_string paramName, v)] |}
    else
      Return {| errors := ["Invalid value of '" +:+ to_string v
                           +:+ "' was provided for parameter '"
                           +:+ to_string paramName +:+ "'."];
                params := [] |}.

(** The elements a [for ... of] loop visits. *)
Definition array_items (v : value) : list value :=
  match v with VArr items => items | _ => [] end.

Definition is_object_type (v : value) : bool :=
  match typeof v with TObject => true | _ => false end.

Definition is_string_type (v : value) : bool :=
  match typeof v with TString => true | _ => false end.

(** [for (var x of items) body], with the store and the [errors] array
    threaded through; an error thrown by the body leaves the loop with
    the store as it then is. *)
Fixpoint for_of (body : store → list string → value → completion (store * list string))
    (items : list value) (σ : store) (errs : list string)
  : store * completion (list string) :=
  match items with
  | [] => (σ, Return errs)
  | x :: rest =>
      match body σ errs x with
      | Throw e => (σ, Throw e)
      | Return (σ', errs') => for_of body rest σ' errs'
      end
  end.

(** The body of the loop of [validate] (source lines 74 to 97). *)
Definition validate_item (this : ParameterValidator) (paramsProvided : value)
    (extractedParams : loc) (σ : store) (errs : list string)
    (paramRequirement : value) : completion (store * list string) :=
  if isArray paramRequirement && truthy (get_prop σ paramRequirement "length") then
    validationResult ← _performLogicalOrParamValidation this σ paramsProvided
                         (array_items paramRequirement);
    Return (Object_assign σ extractedParams (params validationResult),
            errs ++ errors validationResult)
  else
    is_rule ← (if is_object_type paramRequirement
               then keys ← Object_keys σ paramRequirement;
                    Return (truthy (VArr (VStr <$> keys)))
               else Return false);
    if is_rule : bool then
      keys ← Object_keys σ paramRequirement;
      let paramName := default VUndefined (VStr <$> head keys) in
      let validationFunction := get_prop σ paramRequirement (to_string paramName) in
      validationResult ← _executeValidationFunction σ paramsProvided paramName
                           validationFunction;
      let σ1 := Object_assign σ extractedParams (params validationResult) in
      let σ2 := Object_assign σ1 extractedParams (params validationResult) in
      Return (σ2, errs ++ errors validationResult)
    else if is_string_type paramRequirement && truthy paramRequirement then
      validationResult ← _executeValidationFunction σ paramsProvided paramRequirement
                           (defaultValidation this);
      Return (Object_assign σ extractedParams (params validationResult),
              errs ++ errors validationResult)
    else Return (σ, errs).

(** Lines 100 to 106: every message followed by a space, then the last
    space cut off. *)
Definition join_errors (errs : list string) : string :=
  slice_end (fold_left (λ errorMessage error, errorMessage +:+ error +:+ " ") errs EmptyString) 1.

(** The default value of the third parameter: a new empty object. *)
Definition alloc_target (σ : store) (extractedParams : option loc) : store * loc :=
  match extractedParams with
  | Some l => (σ, l)
  | None => let l := fresh (dom σ) in (<[l := []]> σ, l)
  end.

Definition validate (this : ParameterValidator) (σ : store)
    (paramsProvided paramRequirements : value) (extractedParams : option loc)
  : store * completion value :=
  let '(σ0, target) := alloc_target σ extractedParams in
  if negb (truthy paramsProvided) then
    (σ0, Throw (ParameterValidationError "A paramsProvided object is required."))
  else if negb (isArray paramRequirements) then
    (σ0, Throw (Error "paramRequirements must be an array."))
  else
    match for_of (validate_item this paramsProvided target)
            (array_items paramRequirements) σ0 [] with
    | (σ', Throw e) => (σ', Throw e)
    | (σ', Return errs) =>
        if negb (length errs =? 0)%nat then
          (σ', Throw (ParameterValidationError (join_errors errs)))
        else (σ', Return (VRef target))
    end.

(** ** The variant of [validate] that merges once

    The specification advises implementers to merge the result of the
    custom-predicate branch a single time.  This is that variant: the
    loop body with line 88 removed, and [validate] around it. *)
Definition validate_item_merging_once (this : ParameterValidator) (paramsProvided : value)
    (extractedParams : loc) (σ : store) (errs : list string)
    (paramRequirement : value) : completion (store * list string) :=
  if isArray paramRequirement && truthy (get_prop σ paramRequirement "length") then
    validationResult ← _performLogicalOrParamValidation this σ paramsProvided
                         (array_items paramRequirement);
    Return (Object_assign σ extractedParams (params validationResult),
            errs ++ errors validationResult)
  else
    is_rule ← (if is_object_type paramRequirement
               then keys ← Object_keys σ paramRequirement;
                    Return (truthy (VArr (VStr <$> keys)))
               else Return false);
    if is_rule : bool then
      keys ← Object_keys σ paramRequirement;
      let paramName := default VUndefined (VStr <$> head keys) in
      let validationFunction := get_prop σ paramRequirement (to_string paramName) in
      validationResult ← _executeValidationFunction σ paramsProvided paramName
                           validationFunction;
      Return (Object_assign σ extractedParams (params validationResult),
              errs ++ errors validationResult)
    else if is_string_type paramRequirement && truthy paramRequirement then
      validationResult ← _executeValidationFunction σ paramsProvided paramRequirement
                           (defaultValidation this);
      Return (Object_assign σ extractedParams (params validationResult),
              errs ++ errors validationResult)
    else Return (σ, errs).

Definition validate_merging_once (this : ParameterValidator) (σ : store)
    (paramsProvided paramRequirements : value) (extractedParams : option loc)
  : store * completion value :=
  let '(σ0, target) := alloc_target σ extractedParams in
  if negb (truthy paramsProvided) then
    (σ0, Throw (ParameterValidationError "A paramsProvided object is required."))
  else if negb (isArray paramRequirements) then
    (σ0, Throw (Error "paramRequirements must be an array."))
  else
    match for_of (validate_item_merging_once this paramsProvided target)
            (array_items paramRequirements) σ0 [] with
    | (σ', Throw e) => (σ', Throw e)
    | (σ', Return errs) =>
        if negb (length errs =? 0)%nat then
          (σ', Throw (ParameterValidationError (join_errors errs)))
        else (σ', Return (VRef target))
    end.

(** ** What one requirement contributes

    [item_result] is the loop body without its writes: the
    [validationResult] the body obtains from a helper, [None] when the
    item matches no branch.  [validate_item_eq] below shows that the body
    is [item_result] followed by the merge. *)
Definition item_result (this : ParameterValidator) (σ : store)
    (paramsProvided paramRequirement : value) : completion (option validationResult) :=
  if isArray paramRequirement && truthy (get_prop σ paramRequirement "length") then
    validationResult ← _performLogicalOrParamValidation this σ paramsProvided
                         (array_items paramRequirement);
    Return (Some validationResult)
  else
    is_rule ← (if is_object_type paramRequirement
               then keys ← Object_keys σ paramRequirement;
                    Return (truthy (VArr (VStr <$> keys)))
               else Return false);
    if is_rule : bool then
      keys ← Object_keys σ paramRequirement;
      let paramName := default VUndefined (VStr <$> head keys) in
      validationResult ← _executeValidationFunction σ paramsProvided paramName
                           (get_prop σ paramRequirement (to_string paramName));
      Return (Some validationResult)
    else if is_string_type paramRequirement && truthy paramRequirement then
      validationResult ← _executeValidationFunction σ paramsProvided paramRequirement
                           (defaultValidation this);
      Return (Some validationResult)
    else Return None.

(** Parameters and messages of a run of item results, up to the first
    thrown error. *)
Fixpoint gather (rs : list (completion (option validationResult)))
  : obj * completion (list string) :=
  match rs with
  | [] => ([], Return [])
  | Throw e :: _ => ([], Throw e)
  | Return None :: rs' => gather rs'
  | Return (Some vr) :: rs' =>
      let '(ps, c) := gather rs' in
      (params vr ++ ps, es ← c; Return (errors vr ++ es))
  end.

(** The loop body computes an item result and merges it. *)
Definition merge_result (t : loc) (σ : store) (errs : list string)
    (r : option validationResult) : store * list string :=
  match r with
  | None => (σ, errs)
  | Some vr => (Object_assign σ t (params vr), errs ++ errors vr)
  end.

(** ** [validateAsync] and the job queue

    [Promise.resolve().then(cb)] queues a job for [cb] and returns a pending
    promise; the job runs once the running code has finished.  The state
    of the promise [validateAsync] returns is all that is tracked. *)

Inductive job :=
| ReactionJob (this : ParameterValidator)
    (paramsProvided paramRequirements : value) (extractedParams : option loc)
    (* the callback [() => this.validate(...args)] *)
| ResolveThenableJob (thenable then_ : value).
    (* [then_.call(thenable, resolve, reject)] *)

Record agent := { heap : store; promise : promise_state; jobs : list job }.

Definition validateAsync (this : ParameterValidator) (σ : store)
    (paramsProvided paramRequirements : value) (extractedParams : option loc)
  : completion agent :=
  Return {| heap := σ; promise := Pending;
            jobs := [ReactionJob this paramsProvided paramRequirements extractedParams] |}.

Definition is_Object (v : value) : bool :=
  match v with VArr _ | VRef _ | VFun _ => true | _ => false end.

(** Resolving a promise with the value its callback returned: an object
    with a callable [then] is adopted through a further job, anything else
    fulfils the promise. *)
Definition resolve_with (σ : store) (v : value) : promise_state * list job :=
  if is_Object v then
    let then_ := get_prop σ v "then" in
    if is_function then_ then (Pending, [ResolveThenableJob v then_])
    else (Fulfilled v, [])
  else (Fulfilled v, []).

(** Running one job, the queue being what remains after it was taken. *)
Definition run_job (a : agent) (j : job) : agent :=
  match j with
  | ReactionJob this paramsProvided paramRequirements extractedParams =>
      match validate this (heap a) paramsProvided paramRequirements extractedParams with
      | (σ', Throw e) => {| heap := σ'; promise := Rejected e; jobs := jobs a |}
      | (σ', Return v) =>
          let '(p, js) := resolve_with σ' v in
          {| heap := σ'; promise := p; jobs := jobs a ++ js |}
      end
  | ResolveThenableJob thenable then_ =>
      (* The function is handed the two resolving functions; what it
         returns is dropped, what it does with them settles the promise. *)
      match then_ with
      | VFun f => {| heap := heap a; promise := fn_then F f thenable; jobs := jobs a |}
      | _ => a
      end
  end.

Definition job_weight (j : job) : nat :=
  match j with ReactionJob _ _ _ _ => 2 | ResolveThenableJob _ _ => 1 end.

Fixpoint drain (fuel : nat) (a : agent) : agent :=
  match fuel, jobs a with
  | S n, j :: js =>
      drain n (run_job {| heap := heap a; promise := promise a; jobs := js |} j)
  | _, _ => a
  end.

(** Run the queue until it is empty. *)
Definition run_microtasks (a : agent) : agent :=
  drain (sum_list_with job_weight (jobs a)) a.

(** The agent when the queue is taken up, the running code having left
    the store as [σ']. *)
Definition at_store (a : agent) (σ' : store) : agent :=
  {| heap := σ'; promise := promise a; jobs := jobs a |}.

(** ** Vocabulary of the specification *)

Definition is_validation_error (e : exn) : bool :=
  match e with ParameterValidationError _ => true | _ => false end.

(** The value a call returns; calls of non-functions do not return. *)
Definition apply_fn (f arg : value) : value :=
  match call f arg with Return r => r | Throw _ => VUndefined end.

(** A well-formed instance: its default predicate can be called. *)
Definition callable_default (this : ParameterValidator) : Prop :=
  is_function (defaultValidation this) = true.


Definition invalid_message (v : value) (name : string) : string :=
  "Invalid value of '" +:+ to_string v +:+ "' was provided for parameter '"
  +:+ name +:+ "'.".


(** A name of a logical-OR rule passes when the default predicate returns
    a truthy value on what the name reads. *)
Definition passes_default (this : ParameterValidator) (σ : store)
    (paramsProvided name : value) : bool :=
  truthy (apply_fn (defaultValidation this)
            (get_prop σ paramsProvided (to_string name))).



(** What a predicate rule on [name] does to the target and the messages. *)
Definition predicate_rule_outcome (t : loc) (σ : store) (errs : list string)
    (paramsProvided : value) (name : string) (predicate : value)
  : store * list string :=
  let v := get_prop σ paramsProvided name in
  if is_true (apply_fn predicate v) then (Object_assign σ t [(name, v)], errs)
  else (σ, errs ++ [invalid_message v name]).


(** The parameters a requirement extracts. *)
Definition extracted_by (this : ParameterValidator) (σ : store)
    (paramsProvided r : value) : obj :=
  match item_result this σ paramsProvided r with
  | Return (Some vr) => params vr
  | _ => []
  end.

(** Every pair of [ps] carries the value [g] gives its key. *)
Definition reads_of (g : string → value) (ps : obj) : Prop :=
  Forall (λ kv, kv.2 = g kv.1) ps.

(** Two stores that [validate] cannot tell apart while it works for
    [paramsProvided] with target [t]: every read of [paramsProvided] agrees
    and every object other than the target is the same. *)
Definition same_reads (paramsProvided : value) (t : loc) (σ σ' : store) : Prop :=
  (∀ k, get_prop σ' paramsProvided k = get_prop σ paramsProvided k)
  ∧ (∀ l, l ≠ t → σ' !! l = σ !! l).

(** The target is a store object: either the caller's, which must
    exist, or the one [validate] creates. *)
Definition target_exists (σ : store) (t : option loc) : Prop :=
  ∀ l, t = Some l → is_Some (σ !! l).

(** What [validate] makes of the messages collected by its loop. *)
Definition conclude (target : loc) (c : completion (list string)) : completion value :=
  match c with
  | Throw e => Throw e
  | Return errs =>
      if negb (length errs =? 0)%nat
      then Throw (ParameterValidationError (String.concat " " errs))
      else Return (VRef target)
  end.

End Validator.

(** ** Sample table, instance and stores

    Concrete data for the examples: three functions a caller may pass,
    the instance [new ParameterValidator()] and a few small stores. *)

Definition sample_table : fun_table :=
  {| fn_apply := λ id v,
       match id with
       | 0%nat =>                       (* v => typeof v === 'number' && v > 30 *)
           match v with VNum n => VBool (30 <? n)%Z | _ => VBool false end
       | 1%nat => VBool true            (* v => true *)
       | 2%nat => VNum 1                (* v => 1 *)
       | _ => VStr "[object Undefined]" (* Object.prototype.toString *)
       end;
     fn_source := λ f,
       match f with
       | FIsDefined => "isDefined(value) { return value !== undefined; }"
       | FUser 0 => "v => typeof v === 'number' && v > 30"
       | FUser 1 => "v => true"
       | FUser 2 => "v => 1"
       | FUser _ => "function toString() { [native code] }"
       end;
     fn_own := λ _ k,
       if String.eqb k "length" then VNum 1
       else if String.eqb k "name" then VStr EmptyString else VUndefined;
     (* objects inherit [toString]; nothing else is inherited *)
     fn_inherited := λ recv k,
       match recv with
       | VRef _ => if String.eqb k "toString" then VFun (FUser 3) else VUndefined
       | _ => VUndefined
       end;
     (* none of the sample functions calls a function it is handed *)
     fn_then := λ _ _, Pending;
     fn_number_text := λ n, pretty n;
     fn_object_text := λ _, "[object Object]" |}.

Definition default_instance : ParameterValidator :=
  {| _defaultValidation := VUndefined |}.

(** [1 ↦ {}] *)
Definition store_empty_params : store := {[ 1%positive := [] ]}.

(** [1 ↦ {defaultValidation: 5}] *)
Definition store_bad_options : store :=
  {[ 1%positive := [("defaultValidation", VNum 5)] ]}.

(** [1 ↦ {defaultValidation: v => 1}] *)
Definition store_good_options : store :=
  {[ 1%positive := [("defaultValidation", VFun (FUser 2))] ]}.

(** [1 ↦ {}], [2 ↦ {x: v => true}] *)
Definition store_alias : store :=
  {[ 1%positive := []; 2%positive := [("x", VFun (FUser 1))] ]}.

(** [1 ↦ {a: 31, then: v => true}], [2 ↦ {}] *)
Definition store_thenable : store :=
  {[ 1%positive := [("a", VNum 31); ("then", VFun (FUser 1))]; 2%positive := [] ]}.

(** [1 ↦ {a: 31}], [2 ↦ {}] *)
Definition store_partial : store :=
  {[ 1%positive := [("a", VNum 31)]; 2%positive := [] ]}.

(** [1 ↦ {a: 31, b: "x"}], [2 ↦ {a: v => typeof v === 'number' && v > 30}],
    [3 ↦ {}] *)
Definition store_rules : store :=
  {[ 1%positive := [("a", VNum 31); ("b", VStr "x")];
     2%positive := [("a", VFun (FUser 0))];
     3%positive := [] ]}.

(** ** The module's exports

    Lines 204 to 208: one instance, built without options, and its two
    methods bound to it. *)

Definition parameterValidator (F : fun_table) : completion ParameterValidator :=
  constructor F ∅ VUndefined.

Definition exported_validate (F : fun_table) (σ : store)
    (paramsProvided paramRequirements : value) (extractedParams : option loc)
  : store * completion value :=
  match parameterValidator F with
  | Return this => validate F this σ paramsProvided paramRequirements extractedParams
  | Throw e => (σ, Throw e)
  end.

Definition exported_validateAsync (F : fun_table) (σ : store)
    (paramsProvided paramRequirements : value) (extractedParams : option loc)
  : completion agent :=
  this ← parameterValidator F;
  validateAsync this σ paramsProvided paramRequirements extractedParams.

(** ** More vocabulary *)

(** Items on which none of the three tests of the loop body succeeds. *)
Definition falls_through (r : value) : bool :=
  negb (is_object_type r) && negb (is_string_type r && truthy r).

(** The requirement makes no helper throw. *)
Definition no_throw (F : fun_table) (this : ParameterValidator) (σ : store)
    (paramsProvided r : value) : Prop :=
  ∃ x, item_result F this σ paramsProvided r = Return x.

(** The messages a requirement appends. *)
Definition messages_of (F : fun_table) (this : ParameterValidator) (σ : store)
    (paramsProvided r : value) : list string :=
  match item_result F this σ paramsProvided r with
  | Return (Some vr) => errors vr
  | _ => []
  end.

(** Every reference among the requirements, and [paramsProvided] when it
    is one, denotes an object of the store. *)
Definition refs_exist (σ : store) (paramsProvided : value) (reqs : list value) : Prop :=
  ∀ l, (paramsProvided = VRef l ∨ VRef l ∈ reqs) → is_Some (σ !! l).

(** Requirements that only name parameters: non-empty arrays of
    strings, strings, and the items that fall through. *)
Definition names_only (r : value) : bool :=
  match r with
  | VArr (n :: names) => forallb is_string_type (n :: names)
  | VArr [] | VRef _ | VNull => false
  | _ => true
  end.

(** The keys such requirements ask for. *)
Definition names_of (F : fun_table) (r : value) : list string :=
  match r with
  | VStr s => [s]
  | VArr names => map (to_string F) names
  | _ => []
  end.

Definition requested_names (F : fun_table) (reqs : list value) : list string :=
  concat (map (names_of F) reqs).

(** Every pair has a key among [K] and a value other than [undefined]. *)
Definition named_defined (K : list string) (ps : obj) : Prop :=
  Forall (λ kv, kv.1 ∈ K ∧ is_undefined kv.2 = false) ps.


(** ** More sample data *)

(** An instance whose default predicate is [v => 1]. *)
Definition lenient_instance : ParameterValidator :=
  {| _defaultValidation := VFun (FUser 2) |}.

(** [1 ↦ {a: 31}], [2 ↦ {a: v => typeof v === 'number' && v > 30, b: 5}],
    [3 ↦ {b: 5}], [4 ↦ {kept: true}] *)
Definition store_keys : store :=
  {[ 1%positive := [("a", VNum 31)];
     2%positive := [("a", VFun (FUser 0)); ("b", VNum 5)];
     3%positive := [("b", VNum 5)];
     4%positive := [("kept", VBool true)] ]}.

(** * Properties *)

(** ** Strings *)

Lemma append_cons (x : Ascii.ascii) (a b : string) :
  String x a +:+ b = String x (a +:+ b).
Proof. reflexivity. Qed.

Lemma append_assoc (a b c : string) : (a +:+ b) +:+ c = a +:+ (b +:+ c).
Proof.
  induction a as [|x a IH]; [done|]. by rewrite !append_cons, IH.
Qed.

Lemma length_append (a b : string) :
  String.length (a +:+ b) = String.length a + String.length b.
Proof.
  induction a as [|x a IH]; [done|]. rewrite append_cons. simpl. by rewrite IH.
Qed.

Lemma substring_prefix (a b : string) :
  String.substring 0 (String.length a) (a +:+ b) = a.
Proof.
  induction a as [|x a IH].
  - by destruct b.
  - rewrite append_cons. simpl. by rewrite IH.
Qed.

Lemma slice_end_app (a b : string) (n : nat) :
  n = String.length b → slice_end (a +:+ b) n = a.
Proof.
  intros ->. unfold slice_end. rewrite length_append.
  replace (String.length a + String.length b - String.length b)
    with (String.length a) by lia.
  apply substring_prefix.
Qed.

(** The accumulation loops, in closed form. *)
Lemma fold_suffixed (tail : string) (xs : list string) (acc : string) :
  xs ≠ [] →
  fold_left (λ m x, m +:+ x +:+ tail) xs acc
  = acc +:+ String.concat tail xs +:+ tail.
Proof.
  revert acc. induction xs as [|x xs IH]; intros acc Hne; [done|].
  destruct xs as [|y xs].
  - done.
  - change (fold_left _ (x :: y :: xs) acc)
      with (fold_left (λ m x, m +:+ x +:+ tail) (y :: xs) (acc +:+ x +:+ tail)).
    rewrite IH by done.
    change (String.concat tail (x :: y :: xs))
      with (x +:+ tail +:+ String.concat tail (y :: xs)).
    by rewrite !append_assoc.
Qed.

Lemma join_errors_concat (errs : list string) :
  join_errors errs = String.concat " " errs.
Proof.
  unfold join_errors. destruct errs as [|e errs]; [done|].
  rewrite (fold_suffixed " ") by done.
  exact (slice_end_app (String.concat " " (e :: errs)) " " 1 eq_refl).
Qed.

(** ** Objects *)

Lemma obj_lookup_set_eq (o : obj) k v : obj_lookup (obj_set o k v) k = Some v.
Proof.
  induction o as [|[k' v'] o IH]; simpl.
  - by rewrite String.eqb_refl.
  - destruct (String.eqb k' k) eqn:E; simpl; rewrite E; done.
Qed.

Lemma obj_lookup_set_ne (o : obj) k k' v :
  k ≠ k' → obj_lookup (obj_set o k v) k' = obj_lookup o k'.
Proof.
  intros Hne. induction o as [|[k0 v0] o IH]; simpl.
  - by apply String.eqb_neq in Hne as ->.
  - destruct (String.eqb k0 k) eqn:E; simpl.
    + apply String.eqb_eq in E as ->.
      by apply String.eqb_neq in Hne as ->.
    + by rewrite IH.
Qed.

Lemma obj_read_set_eq inh (o : obj) k v : obj_read inh (obj_set o k v) k = v.
Proof. unfold obj_read. by rewrite obj_lookup_set_eq. Qed.

Lemma obj_read_set_ne inh (o : obj) k k' v :
  k ≠ k' → obj_read inh (obj_set o k v) k' = obj_read inh o k'.
Proof. intros. unfold obj_read. by rewrite obj_lookup_set_ne. Qed.

(** Writing back the value a key already reads as changes no read. *)
Lemma obj_read_set_self inh (o : obj) k k' :
  obj_read inh (obj_set o k (obj_read inh o k)) k' = obj_read inh o k'.
Proof.
  destruct (decide (k = k')) as [->|Hne].
  - apply obj_read_set_eq.
  - by apply obj_read_set_ne.
Qed.

Lemma obj_set_idem (o : obj) k v : obj_set (obj_set o k v) k v = obj_set o k v.
Proof.
  induction o as [|[k' v'] o IH]; simpl.
  - by rewrite String.eqb_refl.
  - destruct (String.eqb k' k) eqn:E; simpl; rewrite E; [done | by rewrite IH].
Qed.

Lemma obj_assign_app (o ps qs : obj) :
  obj_assign o (ps ++ qs) = obj_assign (obj_assign o ps) qs.
Proof. unfold obj_assign. by rewrite fold_left_app. Qed.

Lemma obj_assign_cons (o : obj) k v (ps : obj) :
  obj_assign o ((k, v) :: ps) = obj_assign (obj_set o k v) ps.
Proof. done. Qed.

Lemma obj_assign_self inh (o ps : obj) :
  reads_of (obj_read inh o) ps →
  ∀ k, obj_read inh (obj_assign o ps) k = obj_read inh o k.
Proof.
  revert o. induction ps as [|[k1 v1] ps IH]; intros o Hr k; [done|].
  inversion Hr as [|? ? Hv Hrest]; subst. simpl in Hv. subst v1.
  rewrite obj_assign_cons, IH.
  - apply obj_read_set_self.
  - eapply Forall_impl; [exact Hrest|]. intros [k2 v2] ->. simpl.
    symmetry. apply obj_read_set_self.
Qed.

Lemma obj_assign_lookup_other (o ps : obj) k :
  k ∉ ps.*1 → obj_lookup (obj_assign o ps) k = obj_lookup o k.
Proof.
  revert o. induction ps as [|[k1 v1] ps IH]; intros o Hk; [done|].
  rewrite fmap_cons, not_elem_of_cons in Hk. destruct Hk as [Hne Hk].
  rewrite obj_assign_cons, IH by done. apply obj_lookup_set_ne. by intros ->.
Qed.

Lemma obj_assign_lookup (g : string → value) (o ps : obj) k :
  reads_of g ps → k ∈ ps.*1 → obj_lookup (obj_assign o ps) k = Some (g k).
Proof.
  revert o. induction ps as [|[k1 v1] ps IH]; intros o Hr Hk.
  - by apply elem_of_nil in Hk.
  - inversion Hr as [|? ? Hv Hrest]; subst. simpl in Hv. subst v1.
    rewrite obj_assign_cons.
    destruct (decide (k ∈ ps.*1)) as [Hin|Hnin].
    + by apply IH.
    + rewrite fmap_cons, elem_of_cons in Hk. destruct Hk as [->|Hk]; [|done].
      rewrite obj_assign_lookup_other by done. apply obj_lookup_set_eq.
Qed.

Lemma obj_assign_lookup_cases (g : string → value) (o ps : obj) k :
  reads_of g ps →
  obj_lookup (obj_assign o ps) k
  = if decide (k ∈ ps.*1) then Some (g k) else obj_lookup o k.
Proof.
  intros Hr. case_decide.
  - by apply obj_assign_lookup.
  - by apply obj_assign_lookup_other.
Qed.



Lemma obj_assign_twice (o ps : obj) :
  (length ps ≤ 1)%nat → obj_assign (obj_assign o ps) ps = obj_assign o ps.
Proof.
  destruct ps as [|[k v] [|? ?]]; simpl; intros; [done| |lia].
  apply obj_set_idem.
Qed.

Lemma reads_of_set (g : string → value) (o : obj) k :
  reads_of g o → reads_of g (obj_set o k (g k)).
Proof.
  unfold reads_of. induction o as [|[k' v'] o IH]; simpl; intros Hr.
  - by repeat constructor.
  - inversion Hr as [|? ? Hv Hrest]; subst.
    destruct (String.eqb k' k) eqn:E.
    + apply String.eqb_eq in E as ->. by constructor.
    + constructor; [done | by apply IH].
Qed.

(** ** The store *)

Section Store.

Context (F : fun_table).

Lemma Object_assign_nil (σ : store) t : is_Some (σ !! t) → Object_assign σ t [] = σ.
Proof.
  intros [o Ho]. unfold Object_assign. rewrite Ho. simpl. by apply insert_id.
Qed.

Lemma Object_assign_lookup_eq (σ : store) t ps :
  Object_assign σ t ps !! t = Some (obj_assign (default [] (σ !! t)) ps).
Proof. apply lookup_insert_eq. Qed.

Lemma Object_assign_lookup_ne (σ : store) t l ps :
  l ≠ t → Object_assign σ t ps !! l = σ !! l.
Proof. intros. by apply lookup_insert_ne. Qed.

Lemma Object_assign_app (σ : store) t ps qs :
  Object_assign σ t (ps ++ qs) = Object_assign (Object_assign σ t ps) t qs.
Proof.
  unfold Object_assign. rewrite lookup_insert_eq, insert_insert_eq. simpl.
  by rewrite obj_assign_app.
Qed.

Lemma Object_assign_twice (σ : store) t ps :
  (length ps ≤ 1)%nat →
  Object_assign (Object_assign σ t ps) t ps = Object_assign σ t ps.
Proof.
  intros Hps. unfold Object_assign. rewrite lookup_insert_eq, insert_insert_eq.
  simpl. by rewrite obj_assign_twice.
Qed.

Lemma Object_assign_is_Some (σ : store) t l ps :
  is_Some (σ !! l) → is_Some (Object_assign σ t ps !! l).
Proof.
  intros Hl. destruct (decide (l = t)) as [->|Hne].
  - rewrite Object_assign_lookup_eq. eauto.
  - by rewrite Object_assign_lookup_ne.
Qed.

Lemma get_prop_ref (σ : store) l k :
  get_prop F σ (VRef l) k = obj_read (fn_inherited F (VRef l)) (default [] (σ !! l)) k.
Proof. reflexivity. Qed.

Lemma same_reads_refl pp t σ : same_reads F pp t σ σ.
Proof. by split. Qed.

Lemma same_reads_assign pp t σ σ' ps :
  same_reads F pp t σ σ' →
  reads_of (get_prop F σ' pp) ps →
  same_reads F pp t σ (Object_assign σ' t ps).
Proof.
  intros [Hget Hoff] Hr. split.
  - intros k. rewrite <- Hget.
    destruct pp as [| | | | | | |l|]; try done. rewrite !get_prop_ref.
    destruct (decide (l = t)) as [->|Hne].
    + rewrite Object_assign_lookup_eq. change (default [] (Some ?o)) with o.
      by apply obj_assign_self.
    + by rewrite Object_assign_lookup_ne.
  - intros l Hl. rewrite Object_assign_lookup_ne by done. by apply Hoff.
Qed.

Lemma get_prop_other pp t σ σ' r k :
  same_reads F pp t σ σ' → r ≠ VRef t → get_prop F σ' r k = get_prop F σ r k.
Proof.
  intros [_ Hoff] Hr. destruct r as [| | | | | | |l|]; try done. simpl.
  rewrite Hoff; [done | congruence].
Qed.

Lemma Object_keys_other pp t σ σ' r :
  same_reads F pp t σ σ' → r ≠ VRef t → Object_keys σ' r = Object_keys σ r.
Proof.
  intros [_ Hoff] Hr. destruct r as [| | | | | | |l|]; try done. simpl.
  rewrite Hoff; [done | congruence].
Qed.

End Store.

(** ** The helpers and the loop body *)

Section Loop.

Context (F : fun_table).

Lemma exec_params_short σ pp name f vr :
  _executeValidationFunction F σ pp name f = Return vr → (length (params vr) ≤ 1)%nat.
Proof.
  unfold _executeValidationFunction.
  destruct (is_function f); simpl; [|done].
  destruct (call F f _) as [r|e]; simpl; [|done].
  destruct (is_true r); intros [= <-]; simpl; lia.
Qed.

Lemma exec_params_reads σ pp name f vr :
  _executeValidationFunction F σ pp name f = Return vr →
  reads_of (get_prop F σ pp) (params vr).
Proof.
  unfold _executeValidationFunction.
  destruct (is_function f); simpl; [|done].
  destruct (call F f _) as [r|e]; simpl; [|done].
  destruct (is_true r); intros [= <-]; simpl; by repeat constructor.
Qed.

Lemma exec_ext σ σ' pp name f :
  (∀ k, get_prop F σ' pp k = get_prop F σ pp k) →
  _executeValidationFunction F σ' pp name f = _executeValidationFunction F σ pp name f.
Proof. intros H. unfold _executeValidationFunction. by rewrite H. Qed.

Lemma or_extract_ext σ σ' isValid pp names acc :
  (∀ k, get_prop F σ' pp k = get_prop F σ pp k) →
  or_extract F σ' isValid pp names acc = or_extract F σ isValid pp names acc.
Proof.
  intros H. revert acc. induction names as [|n names IH]; intros acc; [done|].
  simpl. rewrite H. destruct (call F isValid _) as [r|e]; simpl; [|done].
  apply IH.
Qed.

Lemma or_extract_reads σ isValid pp names acc o :
  reads_of (get_prop F σ pp) acc →
  or_extract F σ isValid pp names acc = Return o →
  reads_of (get_prop F σ pp) o.
Proof.
  revert acc. induction names as [|n names IH]; intros acc Hacc; simpl.
  - by intros [= <-].
  - destruct (call F isValid _) as [r|e]; simpl; [|done].
    apply IH. destruct (truthy r); [|done].
    by apply (reads_of_set (get_prop F σ pp)).
Qed.

Lemma or_ext this σ σ' pp names :
  (∀ k, get_prop F σ' pp k = get_prop F σ pp k) →
  _performLogicalOrParamValidation F this σ' pp names
  = _performLogicalOrParamValidation F this σ pp names.
Proof.
  intros H. unfold _performLogicalOrParamValidation. by rewrite (or_extract_ext σ σ').
Qed.

Lemma or_params_reads this σ pp names vr :
  _performLogicalOrParamValidation F this σ pp names = Return vr →
  reads_of (get_prop F σ pp) (params vr).
Proof.
  unfold _performLogicalOrParamValidation.
  destruct (or_extract F σ _ pp names []) as [o|e] eqn:E; simpl; [|done].
  intros [= <-]. simpl. eapply or_extract_reads; [|exact E]. constructor.
Qed.

Lemma validate_item_eq this pp t σ errs r :
  validate_item F this pp t σ errs r
  = vr ← item_result F this σ pp r; Return (merge_result t σ errs vr).
Proof.
  unfold validate_item, item_result.
  destruct (isArray r && truthy (get_prop F σ r "length")).
  { destruct (_performLogicalOrParamValidation F this σ pp _); done. }
  destruct (if is_object_type r then _ else _) as [[|]|e]; simpl; [| |done].
  - destruct (Object_keys σ r) as [keys|e]; simpl; [|done].
    destruct (_executeValidationFunction F σ pp _ _) as [vr|e] eqn:E; simpl; [|done].
    by rewrite Object_assign_twice by (by eapply exec_params_short).
  - destruct (is_string_type r && truthy r); [|done].
    destruct (_executeValidationFunction F σ pp _ _); done.
Qed.

Lemma validate_item_merging_once_eq this pp t σ errs r :
  validate_item_merging_once F this pp t σ errs r
  = vr ← item_result F this σ pp r; Return (merge_result t σ errs vr).
Proof.
  unfold validate_item_merging_once, item_result.
  destruct (isArray r && truthy (get_prop F σ r "length")).
  { destruct (_performLogicalOrParamValidation F this σ pp _); done. }
  destruct (if is_object_type r then _ else _) as [[|]|e]; simpl; [| |done].
  - destruct (Object_keys σ r) as [keys|e]; simpl; [|done].
    destruct (_executeValidationFunction F σ pp _ _) as [vr|e] eqn:E; done.
  - destruct (is_string_type r && truthy r); [|done].
    destruct (_executeValidationFunction F σ pp _ _); done.
Qed.

Lemma item_result_reads this σ pp r vr :
  item_result F this σ pp r = Return (Some vr) →
  reads_of (get_prop F σ pp) (params vr).
Proof.
  unfold item_result.
  destruct (isArray r && truthy (get_prop F σ r "length")).
  { destruct (_performLogicalOrParamValidation F this σ pp _) eqn:E; simpl; [|done].
    intros [= <-]. by eapply or_params_reads. }
  destruct (if is_object_type r then _ else _) as [[|]|e]; simpl; [| |done].
  - destruct (Object_keys σ r) as [keys|e]; simpl; [|done].
    destruct (_executeValidationFunction F σ pp _ _) as [vr'|e] eqn:E; simpl; [|done].
    intros [= <-]. by eapply exec_params_reads.
  - destruct (is_string_type r && truthy r); [|done].
    destruct (_executeValidationFunction F σ pp _ _) eqn:E; simpl; [|done].
    intros [= <-]. by eapply exec_params_reads.
Qed.

(** An item result does not depend on what the target holds, as long as
    the item is not the target itself. *)
Lemma item_result_indep this pp t σ σ' r :
  same_reads F pp t σ σ' → r ≠ VRef t →
  item_result F this σ' pp r = item_result F this σ pp r.
Proof.
  intros Hs Hr. unfold item_result.
  rewrite (get_prop_other F pp t σ σ') by done.
  rewrite (Object_keys_other F pp t σ σ') by done.
  rewrite (or_ext this σ σ') by apply Hs.
  destruct (isArray r && _); [done|].
  destruct (if is_object_type r then _ else _) as [[|]|e]; simpl; [| |done].
  - destruct (Object_keys σ r) as [keys|e]; simpl; [|done].
    rewrite (get_prop_other F pp t σ σ') by done.
    by rewrite (exec_ext σ σ') by apply Hs.
  - by rewrite (exec_ext σ σ') by apply Hs.
Qed.

Lemma gather_reads this σ pp reqs :
  reads_of (get_prop F σ pp) (gather (map (item_result F this σ pp) reqs)).1.
Proof.
  induction reqs as [|r reqs IH]; simpl; [constructor|].
  destruct (item_result F this σ pp r) as [[vr|]|e] eqn:E; simpl; [|done|constructor].
  destruct (gather _) as [ps c]. simpl in *.
  apply Forall_app. split; [by eapply item_result_reads | done].
Qed.

(** The loop of [validate], in closed form: the target receives the
    parameters of the item results in order, and the messages accumulate,
    up to the first thrown error. *)
Lemma for_of_validate_item this pp t σ reqs : ∀ σi errs,
  same_reads F pp t σ σi → is_Some (σi !! t) → VRef t ∉ reqs →
  for_of (validate_item F this pp t) reqs σi errs
  = (Object_assign σi t (gather (map (item_result F this σ pp) reqs)).1,
     es ← (gather (map (item_result F this σ pp) reqs)).2; Return (errs ++ es)).
Proof.
  induction reqs as [|r reqs IH]; intros σi errs Hs Ht Hnin; simpl.
  - by rewrite Object_assign_nil, app_nil_r.
  - apply not_elem_of_cons in Hnin as [Hr Hnin].
    rewrite validate_item_eq, (item_result_indep this pp t σ σi) by done.
    destruct (item_result F this σ pp r) as [[vr|]|e] eqn:E; simpl.
    + rewrite IH; [| |by apply Object_assign_is_Some|done].
      * destruct (gather _) as [ps c]. simpl.
        rewrite Object_assign_app. f_equal.
        destruct c; simpl; [|done]. by rewrite app_assoc.
      * apply same_reads_assign; [done|].
        eapply Forall_impl; [by eapply item_result_reads|].
        intros [k v] ->. simpl. symmetry. apply Hs.
    + by apply IH.
    + by rewrite Object_assign_nil.
Qed.

End Loop.

(** * The claims *)

Lemma for_of_ext (body1 body2 : store → list string → value → completion (store * list string))
    (items : list value) :
  (∀ σ errs x, body1 σ errs x = body2 σ errs x) →
  ∀ σ errs, for_of body1 items σ errs = for_of body2 items σ errs.
Proof.
  intros Hb. induction items as [|x items IH]; intros σ errs; simpl; [done|].
  rewrite Hb. destruct (body2 σ errs x) as [[σ' errs']|e]; [apply IH | done].
Qed.

(** ** Input contracts *)

(** C6. A falsy [paramsProvided] makes [validate] raise a
    ParameterValidationError with message "A paramsProvided object is
    required."; a truthy [paramsProvided] with a [paramRequirements] that
    is not an array makes it raise a plain Error, which is not of the
    validation kind, and the store is the one [validate] was entered with:
    no requirement was evaluated. *)
Theorem C6_input_contracts (F : fun_table) this σ pp reqs t :
  (truthy pp = false →
   validate F this σ pp reqs t
   = ((alloc_target σ t).1,
      Throw (ParameterValidationError "A paramsProvided object is required.")))
  ∧ (truthy pp = true → isArray reqs = false →
     validate F this σ pp reqs t
     = ((alloc_target σ t).1, Throw (Error "paramRequirements must be an array."))
     ∧ is_validation_error (Error "paramRequirements must be an array.") = false).
Proof.
  unfold validate. destruct (alloc_target σ t) as [σ0 target]. simpl. split.
  - by intros ->.
  - by intros -> ->.
Qed.

Lemma C6_input_contracts_witness :
  validate sample_table default_instance store_empty_params VUndefined (VArr []) (Some 1%positive)
  = (store_empty_params,
     Throw (ParameterValidationError "A paramsProvided object is required."))
  ∧ validate sample_table default_instance store_empty_params (VRef 1%positive)
      (VStr "name") (Some 1%positive)
    = (store_empty_params, Throw (Error "paramRequirements must be an array.")).
Proof.
  split.
  - apply (proj1 (C6_input_contracts sample_table default_instance
                    store_empty_params VUndefined (VArr []) (Some 1%positive))).
    reflexivity.
  - apply (proj2 (C6_input_contracts sample_table default_instance
                    store_empty_params (VRef 1%positive) (VStr "name") (Some 1%positive)));
      reflexivity.
Defined.

(** ** The constructor *)

(** C3, as the code has it.  When [options] is truthy and its
    [defaultValidation] is neither [undefined] nor a function, the
    constructor raises a ParameterValidationError with message "The
    optional defaultValidation parameter provided is not a function.".
    With falsy options, or with a [defaultValidation] that is [undefined],
    construction succeeds and the default predicate is [isDefined]; with a
    function, construction succeeds, the function is stored and it is the
    default predicate. *)
Theorem C3_constructor (F : fun_table) σ options :
  (truthy options = true →
   is_undefined (get_prop F σ options "defaultValidation") = false →
   is_function (get_prop F σ options "defaultValidation") = false →
   constructor F σ options
   = Throw (ParameterValidationError
              "The optional defaultValidation parameter provided is not a function."))
  ∧ (truthy options = false ∨
     (truthy options = true ∧ get_prop F σ options "defaultValidation" = VUndefined) →
     ∃ this, constructor F σ options = Return this
             ∧ defaultValidation this = VFun FIsDefined)
  ∧ (∀ f, truthy options = true →
          get_prop F σ options "defaultValidation" = VFun f →
          ∃ this, constructor F σ options = Return this
                  ∧ _defaultValidation this = VFun f
                  ∧ defaultValidation this = VFun f).
Proof.
  unfold constructor. repeat split.
  - by intros -> -> ->.
  - intros [->|[-> ->]]; by eexists.
  - intros f -> ->. by eexists.
Qed.

Lemma C3_constructor_witness :
  constructor sample_table store_bad_options (VRef 1%positive)
  = Throw (ParameterValidationError
             "The optional defaultValidation parameter provided is not a function.")
  ∧ (∃ this, constructor sample_table store_bad_options VUndefined = Return this
             ∧ defaultValidation this = VFun FIsDefined)
  ∧ (∃ this, constructor sample_table store_alias (VRef 2%positive) = Return this
             ∧ defaultValidation this = VFun FIsDefined)
  ∧ (∃ this, constructor sample_table store_good_options (VRef 1%positive) = Return this
             ∧ _defaultValidation this = VFun (FUser 2)
             ∧ defaultValidation this = VFun (FUser 2)).
Proof.
  split; [|split; [|split]].
  - apply (proj1 (C3_constructor sample_table store_bad_options (VRef 1%positive)));
      reflexivity.
  - apply (proj1 (proj2 (C3_constructor sample_table store_bad_options VUndefined))).
    left. reflexivity.
  - apply (proj1 (proj2 (C3_constructor sample_table store_alias (VRef 2%positive)))).
    right. split; reflexivity.
  - apply (proj2 (proj2 (C3_constructor sample_table store_good_options (VRef 1%positive))));
      reflexivity.
Defined.

(** C3 as stated fails: for the options [{defaultValidation: 5}] the
    error raised is of the validation kind, not a plain Error. *)
Lemma C3_counterexample :
  (∃ e, constructor sample_table store_bad_options (VRef 1%positive) = Throw e
        ∧ is_validation_error e = true)
  ∧ ¬ (∃ e, constructor sample_table store_bad_options (VRef 1%positive) = Throw e
            ∧ is_validation_error e = false).
Proof.
  split.
  - eexists. split; reflexivity.
  - intros (e & He & Hk). vm_compute in He. by injection He as <-.
Qed.

(** ** Items that match no branch, and items that should not match one *)

(** Items that are neither objects nor non-empty strings fall through
    all three branches of the loop body. *)
Lemma other_types_ignored (F : fun_table) this pp t σ errs r :
  is_object_type r = false →
  is_string_type r && truthy r = false →
  validate_item F this pp t σ errs r = Return (σ, errs).
Proof.
  intros Ho Hs. unfold validate_item.
  replace (isArray r) with false by (by destruct r).
  simpl. rewrite Ho. simpl. by rewrite Hs.
Qed.

(** The second branch is guarded by [Object.keys(paramRequirement)], an
    array, which is truthy even when it is empty: an empty array and an
    empty object reach [_executeValidationFunction] with the name
    [undefined] and with what they read at the key "undefined", which is
    no function unless their prototype chain provides one; and [null]
    reaches [Object.keys]. *)
Lemma empty_shapes_throw (F : fun_table) this pp t σ errs :
  (is_function (fn_inherited F (VArr []) "undefined") = false →
   validate_item F this pp t σ errs (VArr [])
   = Throw (Error "A paramRequirement value provided for the parameter undefined is not a function."))
  ∧ (∀ l, σ !! l = Some [] →
          is_function (fn_inherited F (VRef l) "undefined") = false →
          validate_item F this pp t σ errs (VRef l)
          = Throw (Error "A paramRequirement value provided for the parameter undefined is not a function."))
  ∧ validate_item F this pp t σ errs VNull = Throw TypeError.
Proof.
  split; [|split; [|done]].
  - intros Hf. unfold validate_item, _executeValidationFunction. simpl.
    unfold get_prop. simpl. by rewrite Hf.
  - intros l Hl Hf. unfold validate_item, _executeValidationFunction. simpl.
    rewrite Hl. simpl. unfold get_prop. simpl. by rewrite Hf.
Qed.

(** C2, evaluated.  With [{}] as [paramsProvided], the requirement lists
    [[ [] ]], [[ {} ]] and [[ null ]] do not leave [validate] silently:
    the first two raise a plain Error, the third a TypeError.  A number, a
    boolean and an empty string are ignored. *)
Theorem C2_empty_items_raise :
  (validate sample_table default_instance store_empty_params (VRef 1%positive)
     (VArr [VArr []]) None).2
  = Throw (Error "A paramRequirement value provided for the parameter undefined is not a function.")
  ∧ (validate sample_table default_instance store_partial (VRef 1%positive)
       (VArr [VRef 2%positive]) None).2
    = Throw (Error "A paramRequirement value provided for the parameter undefined is not a function.")
  ∧ (validate sample_table default_instance store_empty_params (VRef 1%positive)
       (VArr [VNull]) None).2
    = Throw TypeError
  ∧ validate sample_table default_instance store_empty_params (VRef 1%positive)
      (VArr [VNum 7; VBool true; VStr EmptyString]) (Some 1%positive)
    = (store_empty_params, Return (VRef 1%positive)).
Proof. repeat split. Qed.

(** ** The doubled merge *)

(** C9. [validate] as written, with the merge of the custom-predicate
    branch done twice, returns the same store and the same completion as
    the variant that merges once, on every input. *)
Theorem C9_double_merge_noop (F : fun_table) this σ pp reqs t :
  validate F this σ pp reqs t = validate_merging_once F this σ pp reqs t.
Proof.
  unfold validate, validate_merging_once.
  destruct (alloc_target σ t) as [σ0 target].
  destruct (negb (truthy pp)); [done|].
  destruct (negb (isArray reqs)); [done|].
  rewrite (for_of_ext (validate_item F this pp target)
             (validate_item_merging_once F this pp target)); [done|].
  intros σ1 errs x.
  by rewrite validate_item_eq, validate_item_merging_once_eq.
Qed.

(** ** Predicate rules *)

Section Rules.

Context (F : fun_table).

Lemma call_function f v :
  is_function f = true → call F f v = Return (apply_fn F f v).
Proof. unfold apply_fn. by destruct f as [| | | | | | | |[|i]]. Qed.

Lemma exec_function σ pp name f :
  is_function f = true →
  _executeValidationFunction F σ pp name f
  = Return (let v := get_prop F σ pp (to_string F name) in
            if is_true (apply_fn F f v)
            then {| errors := []; params := [(to_string F name, v)] |}
            else {| errors := [invalid_message F v (to_string F name)]; params := [] |}).
Proof.
  intros Hf. unfold _executeValidationFunction. rewrite Hf. simpl.
  rewrite call_function by done. simpl.
  by destruct (is_true _).
Qed.

Lemma obj_read_head inh k (v : value) (o : obj) : obj_read inh ((k, v) :: o) k = v.
Proof. unfold obj_read. simpl. by rewrite String.eqb_refl. Qed.

Lemma get_prop_first (σ : store) l k v rest :
  σ !! l = Some ((k, v) :: rest) → get_prop F σ (VRef l) k = v.
Proof. intros Hl. rewrite get_prop_ref, Hl. apply obj_read_head. Qed.

Lemma truthy_nonempty s : s ≠ EmptyString → truthy (VStr s) = true.
Proof.
  intros Hs. simpl. destruct (String.eqb s EmptyString) eqn:E; [|done].
  by apply String.eqb_eq in E.
Qed.


Lemma string_rule_item this pp σ s :
  s ≠ EmptyString → callable_default this →
  item_result F this σ pp (VStr s)
  = Return (Some (let v := get_prop F σ pp s in
                  if is_true (apply_fn F (defaultValidation this) v)
                  then {| errors := []; params := [(s, v)] |}
                  else {| errors := [invalid_message F v s]; params := [] |})).
Proof.
  intros Hs Hd. unfold item_result.
  change (isArray (VStr s)) with false. change (is_object_type (VStr s)) with false.
  change (is_string_type (VStr s)) with true.
  rewrite truthy_nonempty by done. simpl.
  rewrite exec_function by done. done.
Qed.

End Rules.



(** ** The logical-OR rule *)

Section Or.

Context (F : fun_table).

Lemma obj_lookup_reads (g : string → value) (o : obj) k v :
  reads_of g o → obj_lookup o k = Some v → v = g k.
Proof.
  unfold reads_of. induction o as [|[k' v'] o IH]; simpl; [done|].
  intros Hr. inversion Hr as [|? ? Hv Hrest]; subst. simpl in Hv.
  destruct (String.eqb k' k) eqn:E.
  - apply String.eqb_eq in E as ->. by intros [= <-].
  - by apply IH.
Qed.

Lemma obj_lookup_set (o : obj) k k' v w :
  obj_lookup (obj_set o k v) k' = Some w
  ↔ (k' = k ∧ w = v) ∨ (k' ≠ k ∧ obj_lookup o k' = Some w).
Proof.
  destruct (decide (k' = k)) as [->|Hne].
  - rewrite obj_lookup_set_eq. naive_solver.
  - rewrite obj_lookup_set_ne by done. naive_solver.
Qed.

(** The first loop of the rule, by what the result reads at each key. *)
Lemma or_extract_lookup this σ pp names : ∀ acc,
  callable_default this →
  reads_of (get_prop F σ pp) acc →
  ∃ o, or_extract F σ (defaultValidation this) pp names acc = Return o
       ∧ ∀ k v, obj_lookup o k = Some v
                ↔ obj_lookup acc k = Some v
                  ∨ ∃ n, n ∈ names ∧ passes_default F this σ pp n = true
                         ∧ to_string F n = k ∧ v = get_prop F σ pp k.
Proof.
  intros acc Hd. revert acc.
  induction names as [|n names IH]; intros acc Hacc; simpl.
  - exists acc. split; [done|]. intros k v. split; [by left|].
    intros [H|(n & Hn & _)]; [done | by apply elem_of_nil in Hn].
  - rewrite call_function by done. simpl.
    fold (passes_default F this σ pp n).
    destruct (passes_default F this σ pp n) eqn:Hp.
    + destruct (IH (obj_set acc (to_string F n) (get_prop F σ pp (to_string F n))))
        as (o & -> & Ho); [by apply (reads_of_set (get_prop F σ pp))|].
      exists o. split; [done|]. intros k v. rewrite Ho, obj_lookup_set. split.
      * intros [[[-> ->]|[_ H]]|(n' & Hn' & H)].
        -- right. exists n. by rewrite elem_of_cons; eauto.
        -- by left.
        -- right. exists n'. rewrite elem_of_cons. naive_solver.
      * intros [H|(n' & Hn' & Hp' & Hk & Hv)].
        -- left. destruct (decide (k = to_string F n)) as [->|Hne]; [|by right].
           left. split; [done|]. by eapply obj_lookup_reads.
        -- apply elem_of_cons in Hn' as [->|Hn'].
           ++ left. left. by subst.
           ++ right. by exists n'.
    + destruct (IH acc) as (o & -> & Ho); [done|].
      exists o. split; [done|]. intros k v. rewrite Ho. split.
      * intros [H|(n' & Hn' & H)]; [by left|].
        right. exists n'. rewrite elem_of_cons. naive_solver.
      * intros [H|(n' & Hn' & Hp' & Hk & Hv)]; [by left|].
        apply elem_of_cons in Hn' as [->|Hn']; [congruence|].
        right. by exists n'.
Qed.

Lemma existsb_passes this σ pp names :
  existsb (passes_default F this σ pp) names = true
  ↔ ∃ n, n ∈ names ∧ passes_default F this σ pp n = true.
Proof.
  rewrite existsb_exists. setoid_rewrite <- list_elem_of_In. done.
Qed.

Lemma obj_no_lookup (o : obj) : (∀ k v, obj_lookup o k ≠ Some v) → o = [].
Proof.
  destruct o as [|[k v] o]; [done|]. intros H. exfalso.
  apply (H k v). simpl. by rewrite String.eqb_refl.
Qed.


Lemma or_rule_item this σ pp n names :
  item_result F this σ pp (VArr (n :: names))
  = vr ← _performLogicalOrParamValidation F this σ pp (n :: names); Return (Some vr).
Proof.
  unfold item_result.
  replace (isArray (VArr (n :: names)) && truthy (get_prop F σ (VArr (n :: names)) "length"))
    with true; [done|].
  unfold get_prop, own_prop, array_own. simpl. by destruct (length names).
Qed.

(** The rule as a whole. *)
Lemma or_rule_result this σ pp names :
  callable_default this →
  ∃ ps,
    _performLogicalOrParamValidation F this σ pp names
    = Return {| errors := if existsb (passes_default F this σ pp) names
                          then [] else [or_message F names];
                params := ps |}
    ∧ (∀ k v, obj_lookup ps k = Some v
              ↔ ∃ n, n ∈ names ∧ passes_default F this σ pp n = true
                     ∧ to_string F n = k ∧ v = get_prop F σ pp k)
    ∧ (existsb (passes_default F this σ pp) names = false → ps = []).
Proof.
  intros Hd. unfold _performLogicalOrParamValidation.
  destruct (or_extract_lookup this σ pp names [] Hd) as (o & -> & Ho); [constructor|].
  assert (Hiff : ∀ k v, obj_lookup o k = Some v
              ↔ ∃ n, n ∈ names ∧ passes_default F this σ pp n = true
                     ∧ to_string F n = k ∧ v = get_prop F σ pp k).
  { intros k v. rewrite Ho. simpl. naive_solver. }
  assert (Hnone : existsb (passes_default F this σ pp) names = false → o = []).
  { intros He. apply obj_no_lookup. intros k v Hk.
    apply Hiff in Hk as (n & Hn & Hp & _).
    assert (existsb (passes_default F this σ pp) names = true) by (apply existsb_passes; eauto).
    congruence. }
  exists o. split; [|done]. simpl. do 2 f_equal.
  destruct (existsb _ names) eqn:He.
  - apply existsb_passes in He as (n & Hn & Hp).
    destruct o as [|[k v] o]; [|done].
    assert (obj_lookup [] (to_string F n) = Some (get_prop F σ pp (to_string F n)))
      by (apply Hiff; eauto).
    done.
  - by rewrite Hnone.
Qed.

End Or.



(** ** [validate] as a whole *)

Section Validate.

Context (F : fun_table).

Lemma alloc_fresh σ : σ !! (alloc_target σ None).2 = None.
Proof. simpl. apply not_elem_of_dom, is_fresh. Qed.

Lemma alloc_is_Some σ t :
  target_exists σ t → is_Some ((alloc_target σ t).1 !! (alloc_target σ t).2).
Proof.
  intros Ht. destruct t as [l|]; simpl.
  - by apply Ht.
  - rewrite lookup_insert_eq. eauto.
Qed.

Lemma alloc_off_target σ t l :
  l ≠ (alloc_target σ t).2 → (alloc_target σ t).1 !! l = σ !! l.
Proof.
  destruct t as [l'|]; simpl; [done|]. intros Hl. by rewrite lookup_insert_ne.
Qed.

Lemma alloc_same_reads pp σ t :
  same_reads F pp (alloc_target σ t).2 σ (alloc_target σ t).1.
Proof.
  split; [|intros l Hl; by apply alloc_off_target].
  destruct t as [l'|]; [done|].
  intros k. destruct pp as [| | | | | | |l|]; try done.
  rewrite !get_prop_ref. destruct (decide (l = (alloc_target σ None).2)) as [->|Hne].
  - rewrite alloc_fresh. simpl. by rewrite lookup_insert_eq.
  - by rewrite alloc_off_target.
Qed.

(** [validate] in closed form, for a truthy [paramsProvided] and a
    target that is not itself one of the requirements. *)
Lemma validate_closed_form this σ pp reqs t :
  truthy pp = true → target_exists σ t →
  VRef (alloc_target σ t).2 ∉ reqs →
  validate F this σ pp (VArr reqs) t
  = (Object_assign (alloc_target σ t).1 (alloc_target σ t).2
       (gather (map (item_result F this σ pp) reqs)).1,
     conclude (alloc_target σ t).2 (gather (map (item_result F this σ pp) reqs)).2).
Proof.
  intros Hpp Ht Hnin. unfold validate.
  pose proof (alloc_same_reads pp σ t) as Hs.
  pose proof (alloc_is_Some σ t Ht) as Hsome.
  destruct (alloc_target σ t) as [σ0 target]. simpl in *.
  rewrite Hpp. simpl.
  rewrite (for_of_validate_item F this pp target σ reqs σ0 []) by done.
  destruct (gather _) as [ps [errs|e]]; simpl; [|done].
  rewrite join_errors_concat. by destruct (negb _).
Qed.

(** Without any assumption on the requirements: whatever [validate]
    does to the store is a merge, into the target, of values read from
    [paramsProvided]. *)
Lemma for_of_frame this pp t reqs : ∀ σi errs,
  is_Some (σi !! t) →
  ∃ ps, reads_of (get_prop F σi pp) ps
        ∧ (for_of (validate_item F this pp t) reqs σi errs).1 = Object_assign σi t ps.
Proof.
  induction reqs as [|r reqs IH]; intros σi errs Ht; simpl.
  - exists []. split; [constructor | by rewrite Object_assign_nil].
  - rewrite validate_item_eq.
    destruct (item_result F this σi pp r) as [[vr|]|e] eqn:E; simpl.
    + pose proof (item_result_reads F this σi pp r vr E) as Hvr.
      destruct (IH (Object_assign σi t (params vr)) (errs ++ errors vr))
        as (ps & Hps & ->); [by apply Object_assign_is_Some|].
      exists (params vr ++ ps). split; [|by rewrite Object_assign_app].
      apply Forall_app. split; [done|].
      eapply Forall_impl; [exact Hps|]. intros [k v] ->. simpl.
      by apply (same_reads_assign F pp t σi σi (params vr) (same_reads_refl F pp t σi)).
    + by apply IH.
    + exists []. split; [constructor | by rewrite Object_assign_nil].
Qed.

Lemma validate_frame this σ pp reqs t :
  target_exists σ t →
  ∃ ps, reads_of (get_prop F σ pp) ps
        ∧ (validate F this σ pp reqs t).1
          = Object_assign (alloc_target σ t).1 (alloc_target σ t).2 ps.
Proof.
  intros Ht. unfold validate.
  pose proof (alloc_same_reads pp σ t) as [Hs _].
  pose proof (alloc_is_Some σ t Ht) as Hsome.
  destruct (alloc_target σ t) as [σ0 target]. simpl in *.
  assert (Hnil : ∃ ps, reads_of (get_prop F σ pp) ps ∧ σ0 = Object_assign σ0 target ps).
  { exists []. split; [constructor | by rewrite Object_assign_nil]. }
  destruct (negb (truthy pp)); [done|].
  destruct (negb (isArray reqs)); [done|].
  destruct (for_of_frame this pp target (array_items reqs) σ0 [] Hsome) as (ps & Hps & Heq).
  exists ps. split.
  - eapply Forall_impl; [exact Hps|]. intros [k v] ->. apply Hs.
  - destruct (for_of _ _ _ _) as [σ' [errs|e]]; simpl in *; [|done].
    by destruct (negb _).
Qed.

Lemma validate_returns_target this σ pp reqs t v :
  (validate F this σ pp reqs t).2 = Return v → v = VRef (alloc_target σ t).2.
Proof.
  unfold validate. destruct (alloc_target σ t) as [σ0 target]. simpl.
  destruct (negb (truthy pp)); [done|].
  destruct (negb (isArray reqs)); [done|].
  destruct (for_of _ _ _ _) as [σ' [errs|e]]; simpl; [|done].
  destruct (negb _); simpl; [done|]. by intros [= <-].
Qed.

End Validate.

(** ** Every failure is reported *)

Section Reporting.

Context (F : fun_table).



Lemma item_result_throw_kind this σ pp r e :
  item_result F this σ pp r = Throw e → is_validation_error e = false.
Proof.
  assert (Hcall : ∀ f v e', call F f v = Throw e' → is_validation_error e' = false).
  { intros f v e'. destruct f as [| | | | | | | |[|i]]; simpl; try done; by intros [= <-]. }
  assert (Hexec : ∀ name f e', _executeValidationFunction F σ pp name f = Throw e' →
                               is_validation_error e' = false).
  { intros name f e'. unfold _executeValidationFunction.
    destruct (is_function f); simpl; [|by intros [= <-]].
    destruct (call F f _) as [x|e0] eqn:E; simpl.
    - by destruct (is_true x).
    - intros [= <-]. by eapply Hcall. }
  assert (Hor : ∀ isValid names acc e',
            or_extract F σ isValid pp names acc = Throw e' → is_validation_error e' = false).
  { intros isValid names. induction names as [|n names IH]; intros acc e'; simpl; [done|].
    destruct (call F isValid _) as [x|e0] eqn:E; simpl.
    - apply IH.
    - intros [= <-]. by eapply Hcall. }
  unfold item_result.
  destruct (isArray r && _).
  { unfold _performLogicalOrParamValidation.
    destruct (or_extract F σ _ pp _ []) as [o|e0] eqn:E; simpl; [done|].
    intros [= <-]. by eapply Hor. }
  destruct (is_object_type r).
  - destruct (Object_keys σ r) as [keys|e0] eqn:E; simpl.
    + destruct (_executeValidationFunction F σ pp _ _) as [vr|e1] eqn:E1; simpl; [done|].
      intros [= <-]. by eapply Hexec.
    + intros [= <-]. by destruct r; simplify_eq/=.
  - simpl. destruct (is_string_type r && truthy r); [|done].
    destruct (_executeValidationFunction F σ pp _ _) as [vr|e1] eqn:E1; simpl; [done|].
    intros [= <-]. by eapply Hexec.
Qed.



End Reporting.




(** ** The target and the rest of the store *)

(** C7, as the code has it.  For a target that exists when one is
    given: the object [validate] returns is the target, which is the
    caller's object when one was given and an object new to the store
    otherwise; what the target holds afterwards is what it held before
    with values read from [paramsProvided] merged in, and when
    [paramsProvided] is truthy, the requirements are an array and the
    target is not one of them, these are the parameters the requirements
    extract, in order; every other object of the store is unchanged, so
    [paramsProvided] is unchanged whenever it is not the target itself;
    and even when it is, each of its keys still reads as before. *)
Theorem C7_target_and_frame (F : fun_table) this σ pp reqs t :
  target_exists σ t →
  let target := (alloc_target σ t).2 in
  let σ' := (validate F this σ pp reqs t).1 in
  (∀ l, t = Some l → target = l)
  ∧ (t = None → σ !! target = None)
  ∧ (∀ v, (validate F this σ pp reqs t).2 = Return v → v = VRef target)
  ∧ (∃ ps, reads_of (get_prop F σ pp) ps
           ∧ σ' !! target = Some (obj_assign (default [] (σ !! target)) ps))
  ∧ (∀ items, truthy pp = true → reqs = VArr items → VRef target ∉ items →
       σ' !! target
       = Some (obj_assign (default [] (σ !! target))
                 (gather (map (item_result F this σ pp) items)).1))
  ∧ (∀ l, l ≠ target → σ' !! l = σ !! l)
  ∧ (∀ k, get_prop F σ' pp k = get_prop F σ pp k).
Proof.
  intros Ht target σ'.
  assert (Hdef : default [] ((alloc_target σ t).1 !! target) = default [] (σ !! target)).
  { subst target. destruct t as [l|]; [done|].
    rewrite alloc_fresh. simpl. by rewrite lookup_insert_eq. }
  destruct (validate_frame F this σ pp reqs t Ht) as (ps & Hps & Hσ').
  fold σ' in Hσ'. fold target in Hσ'.
  split; [by intros l ->|].
  split; [intros ->; apply alloc_fresh|].
  split; [intros v; apply validate_returns_target|].
  split; [|split; [|split]].
  - exists ps. split; [done|]. by rewrite Hσ', Object_assign_lookup_eq, Hdef.
  - intros items Hpp -> Hnin. subst σ'.
    rewrite validate_closed_form by done. simpl.
    fold target. by rewrite Object_assign_lookup_eq, Hdef.
  - intros l Hl. rewrite Hσ', Object_assign_lookup_ne by done.
    by apply alloc_off_target.
  - rewrite Hσ'. apply same_reads_assign; [apply alloc_same_reads|].
    eapply Forall_impl; [exact Hps|]. intros [k v] ->. simpl.
    symmetry. apply alloc_same_reads.
Qed.

Lemma C7_target_and_frame_witness :
  (validate sample_table default_instance store_partial (VRef 1%positive)
     (VArr [VStr "a"]) (Some 2%positive)).2 = Return (VRef 2%positive)
  ∧ (validate sample_table default_instance store_partial (VRef 1%positive)
       (VArr [VStr "a"]) (Some 2%positive)).1 !! 2%positive = Some [("a", VNum 31)]
  ∧ (validate sample_table default_instance store_partial (VRef 1%positive)
       (VArr [VStr "a"]) (Some 2%positive)).1 !! 1%positive = store_partial !! 1%positive.
Proof.
  assert (Ht : target_exists store_partial (Some 2%positive)).
  { intros l [= <-]. by eexists. }
  pose proof (C7_target_and_frame sample_table default_instance store_partial
                (VRef 1%positive) (VArr [VStr "a"]) (Some 2%positive) Ht)
    as (_ & _ & _ & _ & Hmerge & Hframe & _).
  split; [reflexivity|]. split.
  - etrans; [apply (Hmerge [VStr "a"] eq_refl eq_refl) | reflexivity].
    by intros [[=]|[]%elem_of_nil]%elem_of_cons.
  - by apply Hframe.
Defined.

(** C7 as stated fails when the caller hands [paramsProvided] itself
    as the target: with [p = {}] and the requirement [{x: v => true}],
    [validate(p, [{x: v => true}], p)] returns [p], which now has the own
    key [x]. *)
Lemma C7_counterexample :
  (validate sample_table default_instance store_alias (VRef 1%positive)
     (VArr [VRef 2%positive]) (Some 1%positive)).2 = Return (VRef 1%positive)
  ∧ store_alias !! 1%positive = Some []
  ∧ (validate sample_table default_instance store_alias (VRef 1%positive)
       (VArr [VRef 2%positive]) (Some 1%positive)).1 !! 1%positive
    = Some [("x", VUndefined)].
Proof. repeat split. Qed.

(** ** No rollback *)



(** ** [validateAsync] *)

Section Async.

Context (F : fun_table).

Lemma sum_weights_app (js ks : list job) :
  sum_list_with job_weight (js ++ ks)
  = sum_list_with job_weight js + sum_list_with job_weight ks.
Proof. apply sum_list_with_app. Qed.

Lemma run_job_weight (a : agent) (j : job) :
  (sum_list_with job_weight (jobs (run_job F a j)) + 1
   ≤ sum_list_with job_weight (jobs a) + job_weight j)%nat.
Proof.
  destruct j as [this pp reqs t|thenable then_]; simpl;
    [|destruct then_ as [| | | | | | | |f]; simpl; lia].
  destruct (validate F this (heap a) pp reqs t) as [σ' [v|e]]; simpl; [|lia].
  unfold resolve_with. destruct (is_Object v); simpl.
  - destruct (is_function _); simpl; rewrite ?sum_weights_app, ?app_nil_r; simpl; lia.
  - rewrite app_nil_r. lia.
Qed.

(** The queue empties: every job queues less than it weighs. *)
Lemma drain_empties (n : nat) : ∀ a,
  (sum_list_with job_weight (jobs a) ≤ n)%nat → jobs (drain F n a) = [].
Proof.
  induction n as [|n IH]; intros a Hw.
  - destruct a as [σ p [|j js]]; simpl in *; [done|]. destruct j; simpl in *; lia.
  - destruct a as [σ p [|j js]]; simpl in *; [done|].
    apply IH.
    pose proof (run_job_weight {| heap := σ; promise := p; jobs := js |} j) as Hj.
    simpl in Hj. lia.
Qed.

Lemma run_microtasks_empties (a : agent) : jobs (run_microtasks F a) = [].
Proof. by apply drain_empties. Qed.

End Async.

(** The one job [validateAsync] queues, run to the end. *)
Lemma run_validate_job (F : fun_table) this σ' pp reqs t :
  run_microtasks F {| heap := σ'; promise := Pending;
                      jobs := [ReactionJob this pp reqs t] |}
  = match validate F this σ' pp reqs t with
    | (σ'', Throw e) => {| heap := σ''; promise := Rejected e; jobs := [] |}
    | (σ'', Return v) =>
        {| heap := σ'';
           promise := match get_prop F σ'' v "then" with
                      | VFun f => fn_then F f v
                      | _ => Fulfilled v
                      end;
           jobs := [] |}
    end.
Proof.
  unfold run_microtasks. cbn -[get_prop validate].
  pose proof (validate_returns_target F this σ' pp reqs t) as Hret.
  destruct (validate F this σ' pp reqs t) as [σ'' [v|e]]; cbn -[get_prop] in *; [|done].
  rewrite (Hret v eq_refl). unfold resolve_with. cbn -[get_prop].
  generalize (get_prop F σ'' (VRef (alloc_target σ' t).2) "then").
  intros g. by destruct g.
Qed.

(** C8, as the code has it.  [validateAsync] returns normally, with a
    pending promise, the store untouched and one job queued: nothing of
    [validate] has run.  When the queue is run, in whatever store the
    running code has left, it empties and the store is then the one
    [validate] leaves from that store.  If that call of [validate] raises
    [e], the promise is rejected with [e].  If it returns [v] and [v] has
    no callable [then], the promise is fulfilled with [v].  If it returns
    [v] and [v] has a callable [then], the promise is what that function
    makes of it.  So among the calls whose result has no callable [then],
    the promise is rejected with [e] exactly when [validate] raises [e]
    and fulfilled with [v] exactly when [validate] returns [v]. *)
Theorem C8_validateAsync (F : fun_table) this σ pp reqs t :
  ∃ a, validateAsync this σ pp reqs t = Return a
       ∧ heap a = σ ∧ promise a = Pending
       ∧ jobs a = [ReactionJob this pp reqs t]
       ∧ ∀ σ', let a' := run_microtasks F (at_store a σ') in
               let r := validate F this σ' pp reqs t in
               jobs a' = [] ∧ heap a' = r.1
               ∧ (∀ e, r.2 = Throw e → promise a' = Rejected e)
               ∧ (∀ v, r.2 = Return v →
                       is_function (get_prop F r.1 v "then") = false →
                       promise a' = Fulfilled v)
               ∧ (∀ v f, r.2 = Return v → get_prop F r.1 v "then" = VFun f →
                         promise a' = fn_then F f v)
               ∧ ((∀ v, r.2 = Return v →
                        is_function (get_prop F r.1 v "then") = false) →
                  (∀ e, promise a' = Rejected e ↔ r.2 = Throw e)
                  ∧ (∀ v, promise a' = Fulfilled v ↔ r.2 = Return v)).
Proof.
  eexists. split; [reflexivity|]. simpl. do 3 (split; [done|]).
  intros σ'. unfold at_store. simpl. rewrite run_validate_job.
  destruct (validate F this σ' pp reqs t) as [σ'' [v|e]]; simpl.
  - split; [done|]. split; [done|]. split; [done|]. split; [|split].
    + intros v' [= <-] Hthen. by destruct (get_prop F σ'' v "then").
    + intros v' f [= <-] ->. done.
    + intros Hno. specialize (Hno v eq_refl).
      destruct (get_prop F σ'' v "then"); try done;
        (split; [done|]; intros v'; split; by intros [= <-]).
  - split; [done|]. split; [done|]. split; [|split; [done|split; [done|]]].
    + by intros e' [= <-].
    + intros _. split.
      * intros e'. split; by intros [= <-].
      * done.
Qed.

(** C8 as stated fails when the object [validate] returns has a
    callable [then]: for [validateAsync({a: 31, then: v => true},
    ['a', 'then'])], [validate] returns the extracted object, yet the
    promise is never fulfilled: the queue is empty and the promise is
    still pending. *)
Lemma C8_counterexample :
  (validate sample_table default_instance store_thenable (VRef 1%positive)
     (VArr [VStr "a"; VStr "then"]) None).2 = Return (VRef 3%positive)
  ∧ promise (run_microtasks sample_table
               {| heap := store_thenable; promise := Pending;
                  jobs := [ReactionJob default_instance (VRef 1%positive)
                             (VArr [VStr "a"; VStr "then"]) None] |}) = Pending
  ∧ jobs (run_microtasks sample_table
            {| heap := store_thenable; promise := Pending;
               jobs := [ReactionJob default_instance (VRef 1%positive)
                          (VArr [VStr "a"; VStr "then"]) None] |}) = [].
Proof. repeat split. Qed.

(** * Further properties of the code *)

(** ** Items that fall through *)

Lemma validate_item_falls_through (F : fun_table) this pp t σ errs r :
  falls_through r = true → validate_item F this pp t σ errs r = Return (σ, errs).
Proof.
  unfold falls_through. intros [Ho Hs]%andb_true_iff.
  apply negb_true_iff in Ho, Hs. unfold validate_item.
  replace (isArray r) with false by (by destruct r).
  simpl. rewrite Ho. simpl. by rewrite Hs.
Qed.

Lemma for_of_skip (F : fun_table) this pp t reqs : ∀ σ errs,
  for_of (validate_item F this pp t) reqs σ errs
  = for_of (validate_item F this pp t)
      (List.filter (λ r, negb (falls_through r)) reqs) σ errs.
Proof.
  induction reqs as [|r reqs IH]; intros σ errs; [done|].
  simpl. destruct (falls_through r) eqn:Hr; simpl.
  - by rewrite validate_item_falls_through, IH.
  - destruct (validate_item F this pp t σ errs r) as [[σ' errs']|e]; [apply IH | done].
Qed.

(** Items that are neither objects nor non-empty strings (numbers,
    booleans, [undefined], functions, the empty string) can be struck from
    the requirements: [validate] leaves the same store and the same
    completion without them. *)
Theorem falling_through_items_are_inert (F : fun_table) this σ pp reqs t :
  validate F this σ pp (VArr reqs) t
  = validate F this σ pp (VArr (List.filter (λ r, negb (falls_through r)) reqs)) t.
Proof.
  unfold validate. destruct (alloc_target σ t) as [σ0 target].
  destruct (negb (truthy pp)); [done|]. simpl.
  by rewrite for_of_skip.
Qed.

(** ** Requirement objects *)

(** Of a requirement object only the first key counts, whatever keys
    follow it: when its value is a function the rule is the predicate
    rule on that key, and when it is not, the loop body throws a plain
    Error that names the key. *)
Theorem first_key_only (F : fun_table) this pp t σ errs l k f rest :
  is_Some (σ !! t) → σ !! l = Some ((k, f) :: rest) →
  validate_item F this pp t σ errs (VRef l)
  = if is_function f
    then Return (predicate_rule_outcome F t σ errs pp k f)
    else Throw (Error ("A paramRequirement value provided for the parameter "
                       +:+ k +:+ " is not a function.")).
Proof.
  intros Ht Hl. rewrite validate_item_eq. unfold item_result.
  change (isArray (VRef l)) with false. change (is_object_type (VRef l)) with true.
  unfold Object_keys. rewrite Hl. cbn [andb mbind completion_bind map fst truthy fmap
    list_fmap head default from_option option_fmap option_map id to_string].
  rewrite (get_prop_first F σ l k f rest) by done.
  destruct (is_function f) eqn:Hf.
  - rewrite exec_function by done. unfold predicate_rule_outcome. simpl.
    destruct (is_true _); simpl; [by rewrite app_nil_r|].
    by rewrite Object_assign_nil.
  - unfold _executeValidationFunction. by rewrite Hf.
Qed.

Lemma first_key_only_witness :
  validate_item sample_table default_instance (VRef 1%positive) 3%positive
    store_keys [] (VRef 2%positive)
  = Return (<[3%positive := [("b", VNum 5); ("a", VNum 31)]]> store_keys, [])
  ∧ validate_item sample_table default_instance (VRef 1%positive) 3%positive
      store_keys [] (VRef 3%positive)
    = Throw (Error "A paramRequirement value provided for the parameter b is not a function.").
Proof.
  split.
  - etrans; [apply (first_key_only sample_table default_instance (VRef 1%positive)
                      3%positive store_keys [] 2%positive "a" (VFun (FUser 0))
                      [("b", VNum 5)] (ex_intro _ _ eq_refl) eq_refl)
            | reflexivity].
  - etrans; [apply (first_key_only sample_table default_instance (VRef 1%positive)
                      3%positive store_keys [] 3%positive "b" (VNum 5) []
                      (ex_intro _ _ eq_refl) eq_refl)
            | reflexivity].
Defined.

(** ** Truthy is not [true] *)



(** ** The exported [validate] and [isDefined] *)

Lemma parameterValidator_default (F : fun_table) :
  parameterValidator F = Return default_instance.
Proof. reflexivity. Qed.

Lemma isDefined_answer (F : fun_table) v :
  is_true (apply_fn F (VFun FIsDefined) v) = negb (is_undefined v).
Proof. by destruct v. Qed.



(** ** What the target keeps, and what a new target holds *)

(** [validate] never removes a key from the caller's target, whatever
    the requirements and whether it returns or throws: a key the target
    had is still there, with its old value or with the value
    [paramsProvided] reads at that key. *)
Theorem target_keys_survive (F : fun_table) this σ pp reqs l k v0 :
  is_Some (σ !! l) →
  obj_lookup (default [] (σ !! l)) k = Some v0 →
  ∃ v, obj_lookup (default [] ((validate F this σ pp reqs (Some l)).1 !! l)) k = Some v
       ∧ (v = v0 ∨ v = get_prop F σ pp k).
Proof.
  intros Hl Hk.
  destruct (validate_frame F this σ pp reqs (Some l)) as (ps & Hps & ->).
  { by intros ? [= <-]. }
  simpl. rewrite Object_assign_lookup_eq. simpl.
  rewrite (obj_assign_lookup_cases (get_prop F σ pp)) by done.
  case_decide; eauto.
Qed.

Lemma target_keys_survive_witness :
  ∃ v, obj_lookup
         (default []
            ((validate sample_table default_instance store_keys (VRef 1%positive)
                (VArr [VStr "a"; VNull]) (Some 4%positive)).1 !! 4%positive)) "kept"
       = Some v
       ∧ (v = VBool true
          ∨ v = get_prop sample_table store_keys (VRef 1%positive) "kept").
Proof.
  apply (target_keys_survive sample_table default_instance store_keys (VRef 1%positive)
           (VArr [VStr "a"; VNull]) 4%positive "kept" (VBool true)
           (ex_intro _ _ eq_refl) eq_refl).
Defined.

(** When no target is given, the object [validate] creates holds
    nothing but pairs of [paramsProvided]: each of its keys has the value
    [paramsProvided] reads there.  This holds for every requirements
    argument and also for the object left behind by a call that throws. *)
Theorem new_target_holds_provided_values (F : fun_table) this σ pp reqs k v :
  obj_lookup
    (default [] ((validate F this σ pp reqs None).1 !! (alloc_target σ None).2)) k
  = Some v →
  v = get_prop F σ pp k.
Proof.
  destruct (validate_frame F this σ pp reqs None) as (ps & Hps & ->); [done|].
  rewrite Object_assign_lookup_eq.
  change (default [] (Some ?o)) with o.
  rewrite (obj_assign_lookup_cases (get_prop F σ pp)) by done.
  case_decide; [by intros [= <-]|].
  simpl. by rewrite lookup_insert_eq.
Qed.

Lemma new_target_holds_provided_values_witness :
  obj_lookup
    (default []
       ((validate sample_table default_instance store_keys (VRef 1%positive)
           (VArr [VStr "a"; VStr "zip"]) None).1
        !! (alloc_target store_keys None).2)) "a"
  = Some (VNum 31)
  ∧ VNum 31 = get_prop sample_table store_keys (VRef 1%positive) "a".
Proof.
  split; [reflexivity|].
  apply (new_target_holds_provided_values sample_table default_instance store_keys
           (VRef 1%positive) (VArr [VStr "a"; VStr "zip"]) "a" (VNum 31)).
  reflexivity.
Defined.

(** ** A thrown error ends the pass *)

Section Gather.

Context (F : fun_table).

Lemma gather_app (rs1 rs2 : list (completion (option validationResult))) es1 :
  (gather rs1).2 = Return es1 →
  gather (rs1 ++ rs2)
  = ((gather rs1).1 ++ (gather rs2).1, es ← (gather rs2).2; Return (es1 ++ es)).
Proof.
  revert es1. induction rs1 as [|[[vr|]|e] rs1 IH]; intros es1; simpl.
  - intros [= <-]. by destruct (gather rs2) as [ps [es|e]].
  - destruct (gather rs1) as [ps1 [es|e]] eqn:G; simpl; [|done].
    intros [= <-]. rewrite (IH es eq_refl). simpl.
    destruct (gather rs2) as [ps2 [es2|e2]]; simpl; by rewrite <- ?app_assoc.
  - apply IH.
  - done.
Qed.

Lemma gather_no_throw this σ pp reqs :
  Forall (no_throw F this σ pp) reqs →
  (gather (map (item_result F this σ pp) reqs)).2
  = Return (concat (map (messages_of F this σ pp) reqs)).
Proof.
  induction 1 as [|r reqs [x Hx] _ IH]; [done|].
  simpl. unfold messages_of at 1. rewrite Hx. destruct x as [vr|]; [|done].
  destruct (gather _) as [ps c]. simpl in *. by rewrite IH.
Qed.

Lemma gather_params this σ pp reqs :
  Forall (no_throw F this σ pp) reqs →
  (gather (map (item_result F this σ pp) reqs)).1
  = concat (map (extracted_by F this σ pp) reqs).
Proof.
  induction 1 as [|r reqs [x Hx] Hrest IH]; [done|].
  simpl. unfold extracted_by at 1. rewrite Hx. destruct x as [vr|]; [|done].
  pose proof (gather_no_throw this σ pp reqs Hrest) as Hc.
  destruct (gather _) as [ps c]. simpl in *. by rewrite IH.
Qed.

(** An item result reads the store only through [paramsProvided] and
    through the item. *)
Lemma item_result_ext this pp σ σ' r :
  (∀ k, get_prop F σ' pp k = get_prop F σ pp k) →
  (∀ k, get_prop F σ' r k = get_prop F σ r k) →
  Object_keys σ' r = Object_keys σ r →
  item_result F this σ' pp r = item_result F this σ pp r.
Proof.
  intros Hpp Hr Hkeys. unfold item_result.
  rewrite Hr, Hkeys, (or_ext F this σ σ') by done.
  destruct (isArray r && _); [done|].
  destruct (if is_object_type r then _ else _) as [[|]|e]; simpl; [| |done].
  - destruct (Object_keys σ r) as [keys|e]; simpl; [|done].
    by rewrite Hr, (exec_ext F σ σ') by done.
  - by rewrite (exec_ext F σ σ') by done.
Qed.

Lemma map_item_result_ext this pp σ σ' (reqs : list value) :
  (∀ r, r ∈ reqs → item_result F this σ' pp r = item_result F this σ pp r) →
  map (item_result F this σ' pp) reqs = map (item_result F this σ pp) reqs.
Proof.
  induction reqs as [|r reqs IH]; intros H; [done|]. simpl.
  rewrite H by apply list_elem_of_here. f_equal. apply IH.
  intros r' Hr'. apply H. by apply list_elem_of_further.
Qed.

End Gather.

(** [validate] stops at the first requirement that makes a helper throw:
    with requirements [pre ++ r :: post] where nothing in [pre] throws and
    [r] throws [e], [validate] throws [e], which is never a
    ParameterValidationError, so the messages of the rules of [pre] that
    failed are not reported; [post] is not looked at; and the store is the
    one [validate] leaves for [pre] alone, with what [pre] extracted
    already in the target. *)
Theorem thrown_error_ends_the_pass (F : fun_table) this σ pp pre r post t e :
  truthy pp = true → target_exists σ t →
  VRef (alloc_target σ t).2 ∉ pre ++ r :: post →
  Forall (no_throw F this σ pp) pre →
  item_result F this σ pp r = Throw e →
  validate F this σ pp (VArr (pre ++ r :: post)) t
  = ((validate F this σ pp (VArr pre) t).1, Throw e)
  ∧ is_validation_error e = false.
Proof.
  intros Hpp Ht Hnin Hpre Hr.
  split; [|by eapply item_result_throw_kind].
  assert (Hnin' : VRef (alloc_target σ t).2 ∉ pre).
  { intros Hin. apply Hnin. apply elem_of_app. by left. }
  rewrite !validate_closed_form by done. simpl.
  rewrite map_app. simpl.
  rewrite (gather_app _ _ _ (gather_no_throw F this σ pp pre Hpre)).
  simpl. rewrite Hr. simpl. by rewrite app_nil_r.
Qed.

Lemma thrown_error_ends_the_pass_witness :
  validate sample_table default_instance store_keys (VRef 1%positive)
    (VArr ([VStr "a"; VStr "zip"] ++ VNull :: [VStr "later"])) (Some 4%positive)
  = (<[4%positive := [("kept", VBool true); ("a", VNum 31)]]> store_keys,
     Throw TypeError).
Proof.
  etrans.
  - apply (thrown_error_ends_the_pass sample_table default_instance store_keys
             (VRef 1%positive) [VStr "a"; VStr "zip"] VNull [VStr "later"]
             (Some 4%positive) TypeError eq_refl).
    + intros l [= <-]. by eexists.
    + simpl. intros Hin. repeat (apply elem_of_cons in Hin as [[=]|Hin]).
      by apply elem_of_nil in Hin.
    + repeat constructor; by eexists.
    + reflexivity.
  - reflexivity.
Defined.

(** ** Validating again *)

Lemma obj_set_same (o : obj) k v : obj_lookup o k = Some v → obj_set o k v = o.
Proof.
  induction o as [|[k' v'] o IH]; simpl; [done|].
  destruct (String.eqb k' k) eqn:E.
  - by intros [= ->].
  - intros H. by rewrite IH.
Qed.

Lemma obj_assign_noop (o ps : obj) :
  Forall (λ kv, obj_lookup o kv.1 = Some kv.2) ps → obj_assign o ps = o.
Proof.
  induction 1 as [|[k v] ps Hkv _ IH]; [done|].
  rewrite obj_assign_cons, obj_set_same by done. exact IH.
Qed.

Lemma obj_assign_idem (g : string → value) (o ps : obj) :
  reads_of g ps → obj_assign (obj_assign o ps) ps = obj_assign o ps.
Proof.
  intros Hr. apply obj_assign_noop. apply Forall_forall. intros [k v] Hin. simpl.
  rewrite (obj_assign_lookup g) by (done || (apply list_elem_of_fmap; by exists (k, v))).
  unfold reads_of in Hr. rewrite Forall_forall in Hr.
  f_equal. symmetry. exact (Hr _ Hin).
Qed.

(** In this model, where what a function returns depends on its
    argument value alone, a second call with the same arguments repeats
    the first. *)
Lemma validate_again_general (F : fun_table) this σ pp reqs l :
  truthy pp = true → is_Some (σ !! l) → VRef l ∉ reqs →
  validate F this (validate F this σ pp (VArr reqs) (Some l)).1 pp (VArr reqs) (Some l)
  = validate F this σ pp (VArr reqs) (Some l).
Proof.
  intros Hpp Hl Hnin.
  assert (Ht : target_exists σ (Some l)) by (by intros ? [= <-]).
  rewrite (validate_closed_form F this σ) by done. simpl.
  set (ps := (gather (map (item_result F this σ pp) reqs)).1).
  assert (Hps : reads_of (get_prop F σ pp) ps) by apply gather_reads.
  assert (Hs : same_reads F pp l σ (Object_assign σ l ps)).
  { apply same_reads_assign; [apply same_reads_refl | done]. }
  rewrite validate_closed_form; [|done| |done].
  - simpl. rewrite (map_item_result_ext F this pp σ (Object_assign σ l ps)).
    + fold ps. f_equal. unfold Object_assign.
      rewrite lookup_insert_eq, insert_insert_eq. simpl.
      by rewrite (obj_assign_idem (get_prop F σ pp)).
    + intros r Hr. apply (item_result_indep F this pp l); [done|].
      intros ->. done.
  - intros ? [= <-]. by apply Object_assign_is_Some.
Qed.

Lemma names_only_not_ref (reqs : list value) l :
  Forall (λ r, names_only r = true) reqs → VRef l ∉ reqs.
Proof.
  rewrite Forall_forall. intros H Hin. by specialize (H _ Hin).
Qed.

(** The exported [validate], asked for names only (strings and
    non-empty arrays of strings, no requirement objects): validating a
    second time into the same target changes nothing.  For a truthy
    [paramsProvided] and a target that exists, the second call leaves the
    store the first call left and ends as the first call ended. *)
Theorem validate_again_same_target (F : fun_table) σ pp reqs l :
  truthy pp = true → is_Some (σ !! l) →
  Forall (λ r, names_only r = true) reqs →
  exported_validate F (exported_validate F σ pp (VArr reqs) (Some l)).1 pp
    (VArr reqs) (Some l)
  = exported_validate F σ pp (VArr reqs) (Some l).
Proof.
  intros Hpp Hl Hnames. unfold exported_validate.
  rewrite parameterValidator_default.
  apply validate_again_general; [done|done|by apply names_only_not_ref].
Qed.

Lemma validate_again_same_target_witness :
  exported_validate sample_table
    (exported_validate sample_table store_keys (VRef 1%positive)
       (VArr [VStr "a"; VArr [VStr "zip"; VStr "toString"]; VStr "zip"])
       (Some 4%positive)).1
    (VRef 1%positive)
    (VArr [VStr "a"; VArr [VStr "zip"; VStr "toString"]; VStr "zip"]) (Some 4%positive)
  = (<[4%positive := [("kept", VBool true); ("a", VNum 31);
                      ("toString", VFun (FUser 3))]]> store_keys,
     Throw (ParameterValidationError
              "Invalid value of 'undefined' was provided for parameter 'zip'.")).
Proof.
  etrans.
  - apply (validate_again_same_target sample_table store_keys (VRef 1%positive)
             [VStr "a"; VArr [VStr "zip"; VStr "toString"]; VStr "zip"] 4%positive
             eq_refl (ex_intro _ _ eq_refl)).
    by repeat constructor.
  - reflexivity.
Defined.

(** ** Two calls without a target *)

Section Twice.

Context (F : fun_table).

Lemma reads_off_target (σ σ' : store) (t : loc) (v : value) :
  (∀ l, l ≠ t → σ' !! l = σ !! l) → v ≠ VRef t →
  (∀ k, get_prop F σ' v k = get_prop F σ v k) ∧ Object_keys σ' v = Object_keys σ v.
Proof.
  intros Hoff Hv. destruct v as [| | | | | | |l|]; try done.
  simpl. rewrite Hoff; [done | congruence].
Qed.

Lemma alloc_lookup_new (σ : store) :
  (alloc_target σ None).1 !! (alloc_target σ None).2 = Some [].
Proof. simpl. apply lookup_insert_eq. Qed.

Lemma validate_new_target_off this σ pp reqs l :
  l ≠ (alloc_target σ None).2 →
  (validate F this σ pp reqs None).1 !! l = σ !! l.
Proof.
  intros Hl.
  destruct (validate_frame F this σ pp reqs None) as (ps & _ & ->); [done|].
  rewrite Object_assign_lookup_ne by done. by apply (alloc_off_target σ None).
Qed.

End Twice.

(** Called twice without a target, [validate] creates two different
    objects that hold the same pairs: for a truthy [paramsProvided], when
    every reference among the arguments denotes a store object, the second
    call's object is new, has the content of the first call's object,
    leaves the first call's object and everything else alone, and the
    second call ends as the first did. *)
Theorem new_targets_do_not_alias (F : fun_table) this σ pp reqs :
  truthy pp = true → refs_exist σ pp reqs →
  let r1 := validate F this σ pp (VArr reqs) None in
  let l1 := (alloc_target σ None).2 in
  let r2 := validate F this r1.1 pp (VArr reqs) None in
  let l2 := (alloc_target r1.1 None).2 in
  l1 ≠ l2
  ∧ r2.1 !! l2 = r1.1 !! l1
  ∧ (∀ l, l ≠ l2 → r2.1 !! l = r1.1 !! l)
  ∧ r2.2 = match r1.2 with Return _ => Return (VRef l2) | Throw e => Throw e end.
Proof.
  intros Hpp Hrefs r1 l1 r2 l2.
  assert (Hfresh1 : σ !! l1 = None) by apply alloc_fresh.
  assert (Hfresh2 : r1.1 !! l2 = None) by apply alloc_fresh.
  assert (Hnin1 : VRef l1 ∉ reqs).
  { intros Hin. destruct (Hrefs l1) as [o Ho]; [by right|]. congruence. }
  assert (Hpp1 : pp ≠ VRef l1).
  { intros ->. destruct (Hrefs l1) as [o Ho]; [by left|]. congruence. }
  assert (Hoff : ∀ l, l ≠ l1 → r1.1 !! l = σ !! l).
  { intros l Hl. by apply validate_new_target_off. }
  assert (Hr1 : r1 = (Object_assign (alloc_target σ None).1 l1
                        (gather (map (item_result F this σ pp) reqs)).1,
                      conclude l1 (gather (map (item_result F this σ pp) reqs)).2)).
  { subst r1. by rewrite validate_closed_form. }
  assert (Hl1 : is_Some (r1.1 !! l1)).
  { rewrite Hr1. simpl. rewrite Object_assign_lookup_eq. eauto. }
  assert (Hne : l1 ≠ l2).
  { intros Heq. rewrite <- Heq in Hfresh2. rewrite Hfresh2 in Hl1. by destruct Hl1. }
  assert (Hnin2 : VRef l2 ∉ reqs).
  { intros Hin. destruct (Hrefs l2) as [o Ho]; [by right|].
    rewrite <- Hoff in Ho by (intros ->; congruence). congruence. }
  assert (Hsame : map (item_result F this r1.1 pp) reqs
                  = map (item_result F this σ pp) reqs).
  { apply map_item_result_ext. intros r Hr.
    destruct (reads_off_target F σ r1.1 l1 pp Hoff Hpp1) as [Hg _].
    destruct (reads_off_target F σ r1.1 l1 r Hoff) as [Hg' Hk'].
    { intros ->. done. }
    by apply item_result_ext. }
  assert (Hr2 : r2 = (Object_assign (alloc_target r1.1 None).1 l2
                        (gather (map (item_result F this σ pp) reqs)).1,
                      conclude l2 (gather (map (item_result F this σ pp) reqs)).2)).
  { subst r2. rewrite validate_closed_form by done. by rewrite Hsame. }
  split; [done|]. split; [|split].
  - rewrite Hr2. cbn [fst]. rewrite Object_assign_lookup_eq.
    unfold l2. rewrite alloc_lookup_new.
    rewrite Hr1. cbn [fst]. rewrite Object_assign_lookup_eq.
    unfold l1. by rewrite alloc_lookup_new.
  - intros l Hl. subst r2. by apply validate_new_target_off.
  - rewrite Hr2, Hr1. simpl.
    destruct (gather _).2 as [es|e]; simpl; [|done]. by destruct (negb _).
Qed.

Lemma new_targets_do_not_alias_witness :
  (alloc_target store_keys None).2
  ≠ (alloc_target (validate sample_table default_instance store_keys (VRef 1%positive)
                     (VArr [VStr "a"]) None).1 None).2.
Proof.
  refine (proj1 (new_targets_do_not_alias sample_table default_instance store_keys
                   (VRef 1%positive) [VStr "a"] eq_refl _)).
  intros l [[= <-]|Hin]; [by eexists|].
  apply elem_of_cons in Hin as [[=]|Hin]. by apply elem_of_nil in Hin.
Defined.

(** ** What a successful call guarantees *)




(** ** Errors on the asynchronous path *)

(** The two argument checks of [validate] reach the caller of
    [validateAsync] as rejections: with a falsy [paramsProvided] the
    promise is rejected with the ParameterValidationError "A
    paramsProvided object is required.", and with a truthy
    [paramsProvided] and requirements that are not an array it is rejected
    with the plain Error "paramRequirements must be an array.", whatever
    the store is when the job runs. *)
Theorem argument_checks_reject (F : fun_table) this σ pp reqs t a σ' :
  validateAsync this σ pp reqs t = Return a →
  (truthy pp = false →
   promise (run_microtasks F (at_store a σ'))
   = Rejected (ParameterValidationError "A paramsProvided object is required."))
  ∧ (truthy pp = true → isArray reqs = false →
     promise (run_microtasks F (at_store a σ'))
     = Rejected (Error "paramRequirements must be an array.")).
Proof.
  intros [= <-]. unfold at_store. simpl. rewrite run_validate_job.
  unfold validate. destruct (alloc_target σ' t) as [σ0 target]. split.
  - by intros ->.
  - by intros -> ->.
Qed.

Lemma argument_checks_reject_witness :
  promise (run_microtasks sample_table
             (at_store {| heap := store_keys; promise := Pending;
                          jobs := [ReactionJob default_instance VNull
                                     (VArr [VStr "a"]) None] |} store_rules))
  = Rejected (ParameterValidationError "A paramsProvided object is required.")
  ∧ promise (run_microtasks sample_table
               (at_store {| heap := store_keys; promise := Pending;
                            jobs := [ReactionJob default_instance (VRef 1%positive)
                                       (VRef 2%positive) None] |} store_rules))
    = Rejected (Error "paramRequirements must be an array.").
Proof.
  split.
  - apply (proj1 (argument_checks_reject sample_table default_instance store_keys
                    VNull (VArr [VStr "a"]) None _ store_rules eq_refl)).
    reflexivity.
  - apply (proj2 (argument_checks_reject sample_table default_instance store_keys
                    (VRef 1%positive) (VRef 2%positive) None _ store_rules eq_refl));
      reflexivity.
Defined.

(** The exported [validateAsync] reads [paramsProvided] when its job
    runs, not when it is called: asked for one name [s], it rejects with
    "Invalid value of 'undefined' was provided for parameter '<s>'."
    whenever [s] reads [undefined] in the store the job finds, whatever
    [s] read in the store of the call. *)
Theorem exported_validateAsync_reads_at_run_time (F : fun_table) σ pp s t a σ' :
  exported_validateAsync F σ pp (VArr [VStr s]) t = Return a →
  truthy pp = true → s ≠ EmptyString → target_exists σ' t →
  get_prop F σ' pp s = VUndefined →
  promise (run_microtasks F (at_store a σ'))
  = Rejected (ParameterValidationError
                ("Invalid value of 'undefined' was provided for parameter '"
                 +:+ s +:+ "'.")).
Proof.
  unfold exported_validateAsync. rewrite parameterValidator_default.
  intros [= <-] Hpp Hs Ht Hv. unfold at_store. simpl. rewrite run_validate_job.
  rewrite validate_closed_form; [|done|done|].
  - simpl. rewrite string_rule_item by done. simpl. by rewrite Hv.
  - by intros [[=]|[]%elem_of_nil]%elem_of_cons.
Qed.

Lemma exported_validateAsync_reads_at_run_time_witness :
  get_prop sample_table store_rules (VRef 1%positive) "b" = VStr "x"
  ∧ promise (run_microtasks sample_table
               (at_store {| heap := store_rules; promise := Pending;
                            jobs := [ReactionJob default_instance (VRef 1%positive)
                                       (VArr [VStr "b"]) None] |} store_keys))
    = Rejected (ParameterValidationError
                  "Invalid value of 'undefined' was provided for parameter 'b'.").
Proof.
  split; [reflexivity|].
  apply (exported_validateAsync_reads_at_run_time sample_table store_rules
           (VRef 1%positive) "b" None _ store_keys eq_refl eq_refl); done.
Defined.

(** ** The order of the requirements *)

Section Order.

Context (F : fun_table).

Lemma concat_map_Permutation {A B} (f : A → list B) (l l' : list A) :
  l ≡ₚ l' → concat (map f l) ≡ₚ concat (map f l').
Proof.
  induction 1 as [|x l l' _ IH|x y l|l1 l2 l3 _ IH1 _ IH2]; simpl.
  - done.
  - by rewrite IH.
  - rewrite !app_assoc. by rewrite (Permutation_app_comm (f y) (f x)).
  - by etrans.
Qed.

End Order.

(** In this model, where what a function returns depends on its
    argument value alone, the order of requirements that do not throw does
    not matter to what is extracted. *)
Lemma extraction_order_general (F : fun_table) this σ pp reqs reqs' l :
  truthy pp = true → is_Some (σ !! l) → VRef l ∉ reqs → reqs ≡ₚ reqs' →
  Forall (no_throw F this σ pp) reqs →
  let r := validate F this σ pp (VArr reqs) (Some l) in
  let r' := validate F this σ pp (VArr reqs') (Some l) in
  (∀ k, obj_lookup (default [] (r.1 !! l)) k = obj_lookup (default [] (r'.1 !! l)) k)
  ∧ (∀ l', l' ≠ l → r.1 !! l' = r'.1 !! l')
  ∧ (r.2 = Return (VRef l) ↔ r'.2 = Return (VRef l)).
Proof.
  intros Hpp Hl Hnin Hperm Hno r r'.
  assert (Ht : target_exists σ (Some l)) by (by intros ? [= <-]).
  assert (Hnin' : VRef l ∉ reqs') by (by rewrite <- Hperm).
  assert (Hno' : Forall (no_throw F this σ pp) reqs') by (by rewrite <- Hperm).
  subst r r'. rewrite !validate_closed_form by done. simpl.
  rewrite !gather_params, !gather_no_throw by done. simpl.
  pose proof (concat_map_Permutation (extracted_by F this σ pp) _ _ Hperm) as Hps.
  pose proof (concat_map_Permutation (messages_of F this σ pp) _ _ Hperm) as Hes.
  assert (Hreads : ∀ rs, reads_of (get_prop F σ pp)
                           (concat (map (extracted_by F this σ pp) rs))).
  { intros rs. unfold reads_of. apply Forall_concat, Forall_fmap, Forall_forall.
    intros x _. unfold extracted_by. simpl.
    destruct (item_result F this σ pp x) as [[vr|]|e] eqn:E; try constructor.
    by eapply item_result_reads. }
  split; [|split].
  - intros k. rewrite !Object_assign_lookup_eq. simpl.
    rewrite !(obj_assign_lookup_cases (get_prop F σ pp)) by done.
    repeat case_decide; try done.
    + exfalso. by rewrite <- Hps in *.
    + exfalso. by rewrite Hps in *.
  - intros l' Hl'. by rewrite !Object_assign_lookup_ne.
  - apply Permutation_length in Hes. rewrite Hes.
    by destruct (negb _).
Qed.

Lemma names_only_no_throw (F : fun_table) σ pp (reqs : list value) :
  Forall (λ r, names_only r = true) reqs →
  Forall (no_throw F default_instance σ pp) reqs.
Proof.
  intros H. eapply Forall_impl; [exact H|]. clear H.
  intros r Hr. unfold no_throw.
  destruct r as [| | | | |s|[|n names]|l|]; try done; try by eexists.
  - unfold item_result. change (isArray (VStr s)) with false.
    change (is_object_type (VStr s)) with false. simpl.
    destruct (negb _); [|by eexists].
    rewrite exec_function by done. by eexists.
  - rewrite or_rule_item.
    destruct (or_rule_result F default_instance σ pp (n :: names) eq_refl)
      as (ps & -> & _).
    by eexists.
Qed.

(** The exported [validate], asked for names only (strings and
    non-empty arrays of strings, no requirement objects): what is extracted
    does not depend on the order of the requirements.  For a truthy
    [paramsProvided] and a target that exists, reordering the requirements
    leaves every key of the target with the same value and every other
    object as it is, and the call returns for one order exactly when it
    returns for the other. *)
Theorem extraction_ignores_order (F : fun_table) σ pp reqs reqs' l :
  truthy pp = true → is_Some (σ !! l) →
  Forall (λ r, names_only r = true) reqs → reqs ≡ₚ reqs' →
  let r := exported_validate F σ pp (VArr reqs) (Some l) in
  let r' := exported_validate F σ pp (VArr reqs') (Some l) in
  (∀ k, obj_lookup (default [] (r.1 !! l)) k = obj_lookup (default [] (r'.1 !! l)) k)
  ∧ (∀ l', l' ≠ l → r.1 !! l' = r'.1 !! l')
  ∧ (r.2 = Return (VRef l) ↔ r'.2 = Return (VRef l)).
Proof.
  intros Hpp Hl Hnames Hperm. unfold exported_validate.
  rewrite parameterValidator_default.
  apply extraction_order_general; try done.
  - by apply names_only_not_ref.
  - by apply names_only_no_throw.
Qed.

Lemma extraction_ignores_order_witness :
  obj_lookup
    (default []
       ((exported_validate sample_table store_rules (VRef 1%positive)
           (VArr [VStr "a"; VStr "zip"; VArr [VStr "b"]]) (Some 3%positive)).1
        !! 3%positive)) "b"
  = obj_lookup
      (default []
         ((exported_validate sample_table store_rules (VRef 1%positive)
             (VArr [VArr [VStr "b"]; VStr "a"; VStr "zip"]) (Some 3%positive)).1
          !! 3%positive)) "b".
Proof.
  refine (proj1 (extraction_ignores_order sample_table store_rules
                   (VRef 1%positive) [VStr "a"; VStr "zip"; VArr [VStr "b"]]
                   [VArr [VStr "b"]; VStr "a"; VStr "zip"] 3%positive
                   eq_refl (ex_intro _ _ eq_refl) _ _) "b").
  - by repeat constructor.
  - symmetry. apply (Permutation_cons_append [VStr "a"; VStr "zip"] (VArr [VStr "b"])).
Defined.

(** ** What the constructor guarantees *)

(** Every instance the constructor returns has a default predicate that
    can be called, so the logical-OR helper, which calls it unguarded on
    line 150, does not throw: it returns a result for every store, every
    list of names and every [paramsProvided] that is neither [undefined]
    nor [null]. *)
Theorem constructed_default_is_callable (F : fun_table) σ0 options this :
  constructor F σ0 options = Return this →
  callable_default this
  ∧ ∀ σ pp names, pp ≠ VUndefined → pp ≠ VNull →
      ∃ vr, _performLogicalOrParamValidation F this σ pp names = Return vr.
Proof.
  intros Hc.
  assert (Hd : callable_default this).
  { unfold constructor in Hc. destruct (truthy options); [|by injection Hc as <-].
    destruct (get_prop F σ0 options "defaultValidation") as [| | | | | | | |f] eqn:E;
      simpl in Hc; try done; by injection Hc as <-. }
  split; [done|]. intros σ pp names _ _.
  destruct (or_rule_result F this σ pp names Hd) as (ps & -> & _). eauto.
Qed.

Lemma constructed_default_is_callable_witness :
  callable_default lenient_instance
  ∧ ∀ σ pp names, pp ≠ VUndefined → pp ≠ VNull →
      ∃ vr, _performLogicalOrParamValidation sample_table lenient_instance σ pp names
            = Return vr.
Proof.
  apply (constructed_default_is_callable sample_table store_good_options
           (VRef 1%positive) lenient_instance).
  reflexivity.
Defined.

(** ** [paramsProvided] as its own target, with the default predicate *)

Section SelfTarget.

Context (F : fun_table).

Lemma named_defined_set K (o : obj) k v :
  named_defined K o → k ∈ K → is_undefined v = false →
  named_defined K (obj_set o k v).
Proof.
  unfold named_defined. induction o as [|[k' v'] o IH]; simpl; intros Ho Hk Hv.
  - by repeat constructor.
  - inversion Ho as [|? ? [Hk' Hv'] Hrest]; subst. simpl in *.
    destruct (String.eqb k' k) eqn:E; constructor; auto.
Qed.

Lemma named_defined_mono K K' (ps : obj) :
  (∀ k, k ∈ K → k ∈ K') → named_defined K ps → named_defined K' ps.
Proof.
  intros HK H. eapply Forall_impl; [exact H|]. intros kv [Hk Hv]. auto.
Qed.

Lemma or_extract_named K σ pp names : ∀ acc o,
  (∀ n, n ∈ names → to_string F n ∈ K) →
  named_defined K acc →
  or_extract F σ (VFun FIsDefined) pp names acc = Return o → named_defined K o.
Proof.
  induction names as [|n names IH]; intros acc o HK Hacc; simpl.
  - by intros [= <-].
  - apply IH.
    + intros n' Hn'. apply HK. by apply list_elem_of_further.
    + destruct (is_undefined (get_prop F σ pp (to_string F n))) eqn:E; simpl; [done|].
      apply named_defined_set; [done | apply HK, list_elem_of_here | done].
Qed.

Lemma item_result_named σ pp r vr :
  names_only r = true →
  item_result F default_instance σ pp r = Return (Some vr) →
  named_defined (names_of F r) (params vr).
Proof.
  intros Hr. destruct r as [| | | | |s|[|n names]|l|]; try done.
  - unfold item_result. change (isArray (VStr s)) with false.
    change (is_object_type (VStr s)) with false. simpl.
    destruct (negb _); [|done].
    rewrite exec_function by done.
    change (defaultValidation default_instance) with (VFun FIsDefined).
    cbn [to_string mbind completion_bind]. rewrite isDefined_answer.
    destruct (is_undefined (get_prop F σ pp s)) eqn:E; cbn [negb];
      intros [= <-]; cbn [params names_of]; unfold named_defined; [constructor|].
    constructor; [split; [apply list_elem_of_here | done] | constructor].
  - rewrite or_rule_item. unfold _performLogicalOrParamValidation.
    destruct (or_extract F σ _ pp (n :: names) []) as [o|e] eqn:E; simpl; [|done].
    intros [= <-]. simpl. eapply or_extract_named; [| |exact E].
    + intros n' Hn'. change (to_string F n' ∈ to_string F <$> (n :: names)).
      apply list_elem_of_fmap. eauto.
    + constructor.
Qed.

Lemma gather_named σ pp reqs :
  Forall (λ r, names_only r = true) reqs →
  named_defined (requested_names F reqs)
    (gather (map (item_result F default_instance σ pp) reqs)).1.
Proof.
  unfold requested_names.
  induction 1 as [|r reqs Hr _ IH]; simpl; [constructor|].
  assert (Hright : ∀ ps, named_defined (concat (map (names_of F) reqs)) ps →
                         named_defined (names_of F r ++ concat (map (names_of F) reqs)) ps).
  { intros ps. apply named_defined_mono. intros k Hk. apply elem_of_app. by right. }
  destruct (item_result F default_instance σ pp r) as [[vr|]|e] eqn:E; simpl;
    [|by apply Hright|constructor].
  destruct (gather _) as [ps c]. simpl in *.
  apply Forall_app. split; [|by apply Hright].
  eapply named_defined_mono; [|by eapply item_result_named].
  intros k Hk. apply elem_of_app. by left.
Qed.

End SelfTarget.

(** The exported [validate], asked for names only, with
    [paramsProvided] itself as the target: when every requested name that
    [paramsProvided] reads as other than [undefined] is an own key of it
    (none of them is merely inherited), the store is left exactly as it
    was, whether the call returns or throws. *)
Theorem self_target_is_untouched (F : fun_table) σ l o reqs :
  σ !! l = Some o →
  Forall (λ r, names_only r = true) reqs →
  (∀ k, k ∈ requested_names F reqs →
        is_undefined (get_prop F σ (VRef l) k) = false →
        is_Some (obj_lookup o k)) →
  (exported_validate F σ (VRef l) (VArr reqs) (Some l)).1 = σ.
Proof.
  intros Ho Hnames Hown. unfold exported_validate.
  rewrite parameterValidator_default.
  rewrite validate_closed_form;
    [|done|by intros ? [= <-]; eauto|by apply names_only_not_ref].
  simpl. unfold Object_assign. rewrite Ho. simpl.
  pose proof (gather_reads F default_instance σ (VRef l) reqs) as Hr.
  pose proof (gather_named F σ (VRef l) reqs Hnames) as Hd.
  rewrite obj_assign_noop; [by apply insert_id|].
  unfold reads_of, named_defined in *. rewrite Forall_forall in Hr, Hd.
  apply Forall_forall. intros [k v] Hin.
  specialize (Hr _ Hin). destruct (Hd _ Hin) as [Hk Hv]. cbn [fst snd] in *.
  subst v. destruct (Hown k Hk Hv) as [w Hw]. rewrite Hw. f_equal.
  rewrite get_prop_ref, Ho. unfold obj_read. cbn [default from_option id].
  by rewrite Hw.
Qed.

Lemma self_target_is_untouched_witness :
  (exported_validate sample_table store_rules (VRef 1%positive)
     (VArr [VStr "a"; VArr [VStr "zip"; VStr "b"]; VStr "zip"]) (Some 1%positive)).1
  = store_rules.
Proof.
  apply (self_target_is_untouched sample_table store_rules 1%positive
           [("a", VNum 31); ("b", VStr "x")]
           [VStr "a"; VArr [VStr "zip"; VStr "b"]; VStr "zip"] eq_refl).
  - by repeat constructor.
  - intros k Hk Hdef.
    assert (k = "a" ∨ k = "zip" ∨ k = "b") as [-> | [-> | ->]].
    { change (k ∈ ["a"; "zip"; "b"; "zip"]) in Hk.
      rewrite !elem_of_cons, elem_of_nil in Hk. tauto. }
    + exists (VNum 31). reflexivity.
    + vm_compute in Hdef. discriminate Hdef.
    + exists (VStr "x"). reflexivity.
Defined.
